(** * i3ipc event subscription (subscribe.go): a shallow embedding

    The package keeps three pieces of package-level state: the name table
    [payloads], the slice [eventSockets] and, per socket, the slice of
    subscriber channels.  One goroutine per socket runs [listen].  The
    embedding threads that state explicitly through a [World] record and
    runs the goroutines, the consumers and the callers of the exported
    functions as an interleaving of atomic steps; a goroutine inside the
    [range] loop of [listen] takes one step per subscriber, so that
    consumers and callers of [Subscribe] can act between two sends.

    Go's [encoding/json] and the channel runtime are not part of the
    package; the parts of their behaviour that subscribe.go relies on are
    modelled in the modules [Json] and [Chan] below.

    The file has the definitions first ([Json], [Chan], the package, the
    invariants of its reachable states, a concrete instance), then the
    facts, then their instances on concrete runs. *)

From Stdlib Require Import ZArith Ascii String List Lia Bool.
From stdpp Require Import base tactics option list strings.

Set Warnings "-register-all".
Local Open Scope string_scope.

(** ** Errors

    Go's [error] interface, restricted to the dynamic types that can reach
    this file: the package's own [SubscribeError], the two error kinds of
    [json.Unmarshal], and whatever the transport ([Raw], [GetIPCSocket],
    [recv]) reports. *)
Inductive error : Type :=
  | SubscribeError (msg : string)
  | SyntaxError
  | UnmarshalTypeError (value : string) (target : string)
  | TransportError (msg : string).

(** How the process can end early: [log.Fatal] and [log.Fatalf] print and
    call [os.Exit(1)]; a run-time panic that nobody recovers ends the
    process too. *)
Inductive Exit : Type :=
  | FatalDecode (e : error)
  | FatalPayloadCount (got expected : Z)
  | FatalNoSocket (e : error)
  | FatalSubscribe (e : error)
  | Panicked (what : string).

Inductive Outcome (A : Type) : Type :=
  | Ok (a : A)
  | Stop (x : Exit).
Arguments Ok {A} a.
Arguments Stop {A} x.

(** ** encoding/json, as far as [addDetails] and [subscribe] use it *)
Module Json.

Inductive json : Type :=
  | JNull
  | JBool (b : bool)
  | JNumber (lit : string)
  | JString (s : string)
  | JArray (elems : list json)
  | JObject (members : list (string * json)).

Definition kind (v : json) : string :=
  match v with
  | JNull => "null"
  | JBool _ => "bool"
  | JNumber lit => "number " +:+ lit
  | JString _ => "string"
  | JArray _ => "array"
  | JObject _ => "object"
  end.

(** *** The scanner (RFC 8259 grammar) *)

Definition is_space (c : ascii) : bool :=
  let n := nat_of_ascii c in
  (n =? 32)%nat || (n =? 9)%nat || (n =? 10)%nat || (n =? 13)%nat.

Definition is_digit (c : ascii) : bool :=
  let n := nat_of_ascii c in (48 <=? n)%nat && (n <=? 57)%nat.

Fixpoint skip_space (s : string) : string :=
  match s with
  | String c r => if is_space c then skip_space r else s
  | EmptyString => s
  end.

(** The longest prefix of decimal digits, and what follows it. *)
Fixpoint digits (s : string) : string * string :=
  match s with
  | String c r =>
      if is_digit c then let '(ds, r') := digits r in (String c ds, r')
      else (EmptyString, s)
  | EmptyString => (EmptyString, s)
  end.

Definition scan_int_part (s : string) : option (string * string) :=
  match s with
  | String c r =>
      if Ascii.eqb c "0" then Some ("0", r)
      else if is_digit c then Some (digits s)
      else None
  | EmptyString => None
  end.

Definition scan_frac_part (s : string) : option (string * string) :=
  match s with
  | String "." r =>
      match digits r with
      | (EmptyString, _) => None
      | (ds, r') => Some (String "." ds, r')
      end
  | _ => Some (EmptyString, s)
  end.

Definition scan_exp_digits (pre : string) (s : string) : option (string * string) :=
  match digits s with
  | (EmptyString, _) => None
  | (ds, r') => Some (pre +:+ ds, r')
  end.

Definition scan_exp_part (s : string) : option (string * string) :=
  match s with
  | String c r =>
      if Ascii.eqb c "e" || Ascii.eqb c "E" then
        match r with
        | String "+" r' => scan_exp_digits (String c "+") r'
        | String "-" r' => scan_exp_digits (String c "-") r'
        | _ => scan_exp_digits (String c EmptyString) r
        end
      else Some (EmptyString, s)
  | EmptyString => Some (EmptyString, s)
  end.

(** A number literal is kept as its text, as the decoder does: it is
    converted only once the target type is known. *)
Definition scan_number (s : string) : option (string * string) :=
  let '(sign, s0) :=
    match s with
    | String "-" r => ("-", r)
    | _ => (EmptyString, s)
    end in
  '(ip, s1) ← scan_int_part s0;
  '(fp, s2) ← scan_frac_part s1;
  '(ep, s3) ← scan_exp_part s2;
  Some (sign +:+ ip +:+ fp +:+ ep, s3).

Definition hex_val (c : ascii) : option N :=
  let n := N_of_ascii c in
  if (48 <=? n)%N && (n <=? 57)%N then Some (n - 48)%N
  else if (97 <=? n)%N && (n <=? 102)%N then Some (n - 87)%N
  else if (65 <=? n)%N && (n <=? 70)%N then Some (n - 55)%N
  else None.

Definition hex4 (a b c d : ascii) : option N :=
  x ← hex_val a; y ← hex_val b; z ← hex_val c; w ← hex_val d;
  Some (x * 4096 + y * 256 + z * 16 + w)%N.

Definition byte_of (n : N) : ascii := ascii_of_N (n mod 256).

(** UTF-8 encoding of a code point (at most 0x10FFFF). *)
Definition utf8 (n : N) : string :=
  if (n <? 128)%N then String (byte_of n) EmptyString
  else if (n <? 2048)%N then
    String (byte_of (192 + n / 64)) (String (byte_of (128 + n mod 64)) EmptyString)
  else if (n <? 65536)%N then
    String (byte_of (224 + n / 4096))
      (String (byte_of (128 + (n / 64) mod 64))
         (String (byte_of (128 + n mod 64)) EmptyString))
  else
    String (byte_of (240 + n / 262144))
      (String (byte_of (128 + (n / 4096) mod 64))
         (String (byte_of (128 + (n / 64) mod 64))
            (String (byte_of (128 + n mod 64)) EmptyString))).

Definition replacement_char : N := 65533.

Definition is_surrogate (n : N) : bool := (55296 <=? n)%N && (n <? 57344)%N.
Definition is_high_surrogate (n : N) : bool := (55296 <=? n)%N && (n <? 56320)%N.
Definition is_low_surrogate (n : N) : bool := (56320 <=? n)%N && (n <? 57344)%N.

Definition simple_escape (c : ascii) : option ascii :=
  if Ascii.eqb c "034" then Some "034"%char
  else if Ascii.eqb c "\" then Some "\"%char
  else if Ascii.eqb c "/" then Some "/"%char
  else if Ascii.eqb c "b" then Some (ascii_of_nat 8)
  else if Ascii.eqb c "f" then Some (ascii_of_nat 12)
  else if Ascii.eqb c "n" then Some (ascii_of_nat 10)
  else if Ascii.eqb c "r" then Some (ascii_of_nat 13)
  else if Ascii.eqb c "t" then Some (ascii_of_nat 9)
  else None.

(** The body of a string literal, after its opening quote: the unquoted
    text and what follows the closing quote.  Bytes of the input above
    0x7f are copied as they are (the decoder's replacement of ill-formed
    UTF-8 by U+FFFD is left out). *)
Fixpoint scan_string (s : string) : option (string * string) :=
  match s with
  | EmptyString => None
  | String c r =>
      if Ascii.eqb c "034" then Some (EmptyString, r)
      else if (nat_of_ascii c <? 32)%nat then None
      else if Ascii.eqb c "\" then
        match r with
        | String "u" (String h1 (String h2 (String h3 (String h4 r1)))) =>
            n ← hex4 h1 h2 h3 h4;
            if is_high_surrogate n then
              match r1 with
              | String "\" (String "u" (String l1 (String l2 (String l3 (String l4 r2))))) =>
                  match hex4 l1 l2 l3 l4 with
                  | Some m =>
                      if is_low_surrogate m then
                        '(t, r3) ← scan_string r2;
                        Some (utf8 (65536 + (n - 55296) * 1024 + (m - 56320)) +:+ t, r3)
                      else
                        '(t, r3) ← scan_string r1;
                        Some (utf8 replacement_char +:+ t, r3)
                  | None => None
                  end
              | _ =>
                  '(t, r3) ← scan_string r1;
                  Some (utf8 replacement_char +:+ t, r3)
              end
            else
              '(t, r3) ← scan_string r1;
              Some (utf8 (if is_surrogate n then replacement_char else n) +:+ t, r3)
        | String e r1 =>
            b ← simple_escape e;
            '(t, r3) ← scan_string r1;
            Some (String b t, r3)
        | EmptyString => None
        end
      else
        '(t, r3) ← scan_string r;
        Some (String c t, r3)
  end.

Definition strip_prefix (p s : string) : option string :=
  if String.prefix p s then Some (String.substring (String.length p) (String.length s - String.length p) s)
  else None.

(** One value, then the members of an object after its first key's
    opening position, then the elements of an array.  [fuel] bounds the
    nesting; [scan] below supplies enough for any input. *)
Fixpoint scan_value (fuel : nat) (s : string) : option (json * string) :=
  match fuel with
  | O => None
  | S fuel =>
      match skip_space s with
      | EmptyString => None
      | String c r =>
          if Ascii.eqb c "{" then
            match skip_space r with
            | String "}" r' => Some (JObject [], r')
            | _ => '(ms, r') ← scan_members fuel r; Some (JObject ms, r')
            end
          else if Ascii.eqb c "[" then
            match skip_space r with
            | String "]" r' => Some (JArray [], r')
            | _ => '(vs, r') ← scan_elements fuel r; Some (JArray vs, r')
            end
          else if Ascii.eqb c "034" then
            '(t, r') ← scan_string r; Some (JString t, r')
          else if Ascii.eqb c "t" then
            r' ← strip_prefix "rue" r; Some (JBool true, r')
          else if Ascii.eqb c "f" then
            r' ← strip_prefix "alse" r; Some (JBool false, r')
          else if Ascii.eqb c "n" then
            r' ← strip_prefix "ull" r; Some (JNull, r')
          else
            '(lit, r') ← scan_number (String c r); Some (JNumber lit, r')
      end
  end
with scan_members (fuel : nat) (s : string) : option (list (string * json) * string) :=
  match fuel with
  | O => None
  | S fuel =>
      match skip_space s with
      | String "034" r =>
          '(k, r1) ← scan_string r;
          match skip_space r1 with
          | String ":" r2 =>
              '(v, r3) ← scan_value fuel r2;
              match skip_space r3 with
              | String "," r4 => '(ms, r5) ← scan_members fuel r4; Some ((k, v) :: ms, r5)
              | String "}" r4 => Some ([(k, v)], r4)
              | _ => None
              end
          | _ => None
          end
      | _ => None
      end
  end
with scan_elements (fuel : nat) (s : string) : option (list json * string) :=
  match fuel with
  | O => None
  | S fuel =>
      '(v, r1) ← scan_value fuel s;
      match skip_space r1 with
      | String "," r2 => '(vs, r3) ← scan_elements fuel r2; Some (v :: vs, r3)
      | String "]" r2 => Some ([v], r2)
      | _ => None
      end
  end.

(** A whole document: one value between optional white space. *)
Definition scan (raw : string) : option json :=
  match scan_value (2 * String.length raw + 2) raw with
  | Some (v, r) =>
      match skip_space r with
      | EmptyString => Some v
      | _ => None
      end
  | None => None
  end.

(** *** Decoding a value into a Go variable

    [d.value(v)] stores into an addressable variable and carries on after a
    type mismatch: the first such mismatch is what [Unmarshal] returns at
    the end, and the variable keeps whatever was stored.  A decoder is
    therefore a transformer of the variable's current contents, paired with
    the error it contributes. *)
Definition Dec (T : Type) : Type := json -> T -> T * option error.

Definition first_error (a b : option error) : option error :=
  match a with
  | Some _ => a
  | None => b
  end.

Definition dec_string : Dec string := fun v cur =>
  match v with
  | JString s => (s, None)
  | JNull => (cur, None)
  | _ => (cur, Some (UnmarshalTypeError (kind v) "string"))
  end.

Definition dec_bool : Dec bool := fun v cur =>
  match v with
  | JBool b => (b, None)
  | JNull => (cur, None)
  | _ => (cur, Some (UnmarshalTypeError (kind v) "bool"))
  end.

Fixpoint digits_value (s : string) (acc : Z) : option Z :=
  match s with
  | EmptyString => Some acc
  | String c r =>
      if is_digit c then digits_value r (acc * 10 + (Z.of_nat (nat_of_ascii c) - 48))%Z
      else None
  end.

(** [strconv.ParseInt(lit, 10, 64)] on a number literal. *)
Definition parse_int64 (lit : string) : option Z :=
  let '(neg, ds) :=
    match lit with
    | String "-" r => (true, r)
    | _ => (false, lit)
    end in
  match ds with
  | EmptyString => None
  | _ =>
      n ← digits_value ds 0%Z;
      let z := if (neg : bool) then (- n)%Z else n in
      if ((- 2 ^ 63 <=? z) && (z <? 2 ^ 63))%Z then Some z else None
  end.

(** Go's [int] (64 bits). *)
Definition dec_int : Dec Z := fun v cur =>
  match v with
  | JNumber lit =>
      match parse_int64 lit with
      | Some z => (z, None)
      | None => (cur, Some (UnmarshalTypeError (kind v) "int"))
      end
  | JNull => (cur, None)
  | _ => (cur, Some (UnmarshalTypeError (kind v) "int"))
  end.

(** The elements of an array into a slice: an element already present is
    decoded in place, the slice is grown with zero values as needed and cut
    to the number of elements read. *)
Fixpoint dec_elems {T : Type} (dec : Dec T) (zero : T) (vs : list json) (cur : list T)
  : list T * option error :=
  match vs with
  | [] => ([], None)
  | v :: vs' =>
      let x := match cur with c :: _ => c | [] => zero end in
      let '(x', e1) := dec v x in
      let '(rest, e2) := dec_elems dec zero vs' (tail cur) in
      (x' :: rest, first_error e1 e2)
  end.

(** A slice; the nil slice and the empty slice are both [[]]. *)
Definition dec_slice {T : Type} (dec : Dec T) (zero : T) (tyname : string) : Dec (list T) :=
  fun v cur =>
    match v with
    | JArray vs => dec_elems dec zero vs cur
    | JNull => ([], None)
    | _ => (cur, Some (UnmarshalTypeError (kind v) tyname))
    end.

Definition lower (c : ascii) : ascii :=
  let n := nat_of_ascii c in
  if (65 <=? n)%nat && (n <=? 90)%nat then ascii_of_nat (n + 32) else c.

(** Case-insensitive comparison of a key with a field name (ASCII letters;
    the two non-ASCII characters that Unicode folds onto [k] and [s] are
    left out). *)
Fixpoint fold_eqb (a b : string) : bool :=
  match a, b with
  | EmptyString, EmptyString => true
  | String x a', String y b' => Ascii.eqb (lower x) (lower y) && fold_eqb a' b'
  | _, _ => false
  end.

(** The field a key selects: an exact match of the name if there is one,
    else the first field whose name matches up to case. *)
Definition find_field {F : Type} (key : string) (fields : list (string * F)) : option F :=
  match List.find (fun f => String.eqb (fst f) key) fields with
  | Some f => Some (snd f)
  | None => snd <$> List.find (fun f => fold_eqb (fst f) key) fields
  end.

(** The members of an object, in order, into a struct: a key that selects
    no field is skipped with its value. *)
Fixpoint dec_members {T : Type} (fields : list (string * Dec T))
    (ms : list (string * json)) (d : T) : T * option error :=
  match ms with
  | [] => (d, None)
  | (k, v) :: ms' =>
      match find_field k fields with
      | Some dec =>
          let '(d1, e1) := dec v d in
          let '(d2, e2) := dec_members fields ms' d1 in
          (d2, first_error e1 e2)
      | None => dec_members fields ms' d
      end
  end.

Definition dec_struct {T : Type} (tyname : string) (fields : list (string * Dec T)) : Dec T :=
  fun v d =>
    match v with
    | JObject ms => dec_members fields ms d
    | JNull => (d, None)
    | _ => (d, Some (UnmarshalTypeError (kind v) tyname))
    end.

(** The decoder of a field of type [A] inside a struct [T]. *)
Definition field {T A : Type} (get : T -> A) (set : A -> T -> T) (dec : Dec A) : Dec T :=
  fun v d => let '(a, e) := dec v (get d) in (set a d, e).

(** [json.Unmarshal(raw, &d)]: the input is checked as a whole first, so a
    syntax error leaves [d] untouched. *)
Definition Unmarshal {T : Type} (dec : Dec T) (raw : string) (d : T) : T * option error :=
  match scan raw with
  | Some v => dec v d
  | None => (d, Some SyntaxError)
  end.

(** For writing JSON texts in this file: the text with every apostrophe
    turned into a quotation mark. *)
Fixpoint json_text (s : string) : string :=
  match s with
  | EmptyString => EmptyString
  | String c r => String (if Ascii.eqb c "'" then "034"%char else c) (json_text r)
  end.

End Json.

(** ** Channels

    A [chan Event] value is a reference; [Chan.t] is the state behind it.
    [recvq] counts the goroutines parked in a receive on the channel and
    [received] lists, in order, what receivers have taken out of it.  The
    package never closes a channel and never blocks in a send, so closing
    and parked senders are left out. *)
Module Chan.

Record t (A : Type) : Type := mk {
  cap : nat;
  buf : list A;
  recvq : nat;
  received : list A
}.
Arguments mk {A} _ _ _ _.
Arguments cap {A} _.
Arguments buf {A} _.
Arguments recvq {A} _.
Arguments received {A} _.

(** [make(chan A, n)]. *)
Definition make {A : Type} (n : nat) : t A := mk n [] 0 [].

(** [select { case c <- x: default: }]: the send goes through when a
    receiver is parked (the value is handed to it) or the buffer has room;
    otherwise the default branch runs and nothing changes.  The boolean
    tells which branch ran. *)
Definition try_send {A : Type} (x : A) (c : t A) : t A * bool :=
  if (0 <? recvq c)%nat then
    (mk (cap c) (buf c) (recvq c - 1) (received c ++ [x]), true)
  else if (length (buf c) <? cap c)%nat then
    (mk (cap c) (buf c ++ [x]) (recvq c) (received c), true)
  else (c, false).

(** [<-c] by a consumer: a buffered value is taken at once, otherwise the
    consumer parks until a sender hands it one. *)
Definition recv {A : Type} (c : t A) : t A :=
  match buf c with
  | x :: b => mk (cap c) b (recvq c) (received c ++ [x])
  | [] => mk (cap c) [] (recvq c + 1) (received c)
  end.

End Chan.

(** ** The package *)

Import Json.
Local Open Scope Z_scope.
Local Open Scope list_scope.

(** [type EventType int32] and the enumeration; [eventmax] is the private
    value that closes it. *)
Abbreviation EventType := Z (only parsing).

Definition I3WorkspaceEvent : EventType := 0.
Definition I3OutputEvent : EventType := 1.
Definition I3ModeEvent : EventType := 2.
Definition I3WindowEvent : EventType := 3.
Definition I3BarConfigUpdateEvent : EventType := 4.
Definition I3BindingEvent : EventType := 5.
Definition eventmax : EventType := 6.

(** Conversion of an [int] to [int32]: the value is cut to 32 bits. *)
Definition int32 (z : Z) : Z := (z + 2 ^ 31) mod 2 ^ 32 - 2 ^ 31.

(** [l[i]] for an integer index: out of range is a run-time panic. *)
Definition index {A : Type} (l : list A) (i : Z) : option A :=
  if i <? 0 then None else l !! Z.to_nat i.

Definition payloads_init : list string :=
  ["workspace"; "output"; "mode"; "window"; "barconfig_update"; "binding"].

Record BaseEvent : Type := {
  BaseEvent_Change : string
}.

Record ModeEvent : Type := {
  ModeEvent_Change : string;
  ModeEvent_PangoMarkup : bool
}.

Record Binding : Type := {
  Binding_Command : string;
  Binding_EventStateMask : list string;
  Binding_InputCode : Z;
  Binding_Symbol : string;
  Binding_InputType : string
}.

Record BindingEvent : Type := {
  BindingEvent_Change : string;
  BindingEvent_Binding : Binding
}.

Record subscribeReply : Type := {
  Success : bool
}.

Definition dec_BaseEvent : Dec BaseEvent :=
  dec_struct "BaseEvent"
    [("Change", field BaseEvent_Change (fun a _ => {| BaseEvent_Change := a |}) dec_string)].

Definition dec_ModeEvent : Dec ModeEvent :=
  dec_struct "ModeEvent"
    [("Change", field ModeEvent_Change
        (fun a d => {| ModeEvent_Change := a; ModeEvent_PangoMarkup := ModeEvent_PangoMarkup d |})
        dec_string);
     ("PangoMarkup", field ModeEvent_PangoMarkup
        (fun a d => {| ModeEvent_Change := ModeEvent_Change d; ModeEvent_PangoMarkup := a |})
        dec_bool)].

Definition dec_Binding : Dec Binding :=
  dec_struct "Binding"
    [("Command", field Binding_Command
        (fun a d => {| Binding_Command := a;
                       Binding_EventStateMask := Binding_EventStateMask d;
                       Binding_InputCode := Binding_InputCode d;
                       Binding_Symbol := Binding_Symbol d;
                       Binding_InputType := Binding_InputType d |})
        dec_string);
     ("EventStateMask", field Binding_EventStateMask
        (fun a d => {| Binding_Command := Binding_Command d;
                       Binding_EventStateMask := a;
                       Binding_InputCode := Binding_InputCode d;
                       Binding_Symbol := Binding_Symbol d;
                       Binding_InputType := Binding_InputType d |})
        (dec_slice dec_string EmptyString "[]string"));
     ("InputCode", field Binding_InputCode
        (fun a d => {| Binding_Command := Binding_Command d;
                       Binding_EventStateMask := Binding_EventStateMask d;
                       Binding_InputCode := a;
                       Binding_Symbol := Binding_Symbol d;
                       Binding_InputType := Binding_InputType d |})
        dec_int);
     ("Symbol", field Binding_Symbol
        (fun a d => {| Binding_Command := Binding_Command d;
                       Binding_EventStateMask := Binding_EventStateMask d;
                       Binding_InputCode := Binding_InputCode d;
                       Binding_Symbol := a;
                       Binding_InputType := Binding_InputType d |})
        dec_string);
     ("InputType", field Binding_InputType
        (fun a d => {| Binding_Command := Binding_Command d;
                       Binding_EventStateMask := Binding_EventStateMask d;
                       Binding_InputCode := Binding_InputCode d;
                       Binding_Symbol := Binding_Symbol d;
                       Binding_InputType := a |})
        dec_string)].

Definition dec_BindingEvent : Dec BindingEvent :=
  dec_struct "BindingEvent"
    [("Change", field BindingEvent_Change
        (fun a d => {| BindingEvent_Change := a; BindingEvent_Binding := BindingEvent_Binding d |})
        dec_string);
     ("Binding", field BindingEvent_Binding
        (fun a d => {| BindingEvent_Change := BindingEvent_Change d; BindingEvent_Binding := a |})
        dec_Binding)].

Definition dec_subscribeReply : Dec subscribeReply :=
  dec_struct "subscribeReply"
    [("Success", field Success (fun a _ => {| Success := a |}) dec_bool)].

Definition BaseEvent_zero : BaseEvent := {| BaseEvent_Change := EmptyString |}.
Definition ModeEvent_zero : ModeEvent :=
  {| ModeEvent_Change := EmptyString; ModeEvent_PangoMarkup := false |}.
Definition Binding_zero : Binding :=
  {| Binding_Command := EmptyString; Binding_EventStateMask := [];
     Binding_InputCode := 0; Binding_Symbol := EmptyString;
     Binding_InputType := EmptyString |}.
Definition BindingEvent_zero : BindingEvent :=
  {| BindingEvent_Change := EmptyString; BindingEvent_Binding := Binding_zero |}.

(** What [recv] hands to [listen].  [Message] is declared with the
    transport, in another file; these are the three fields [listen] reads. *)
Record Message : Type := {
  Message_Type : Z;
  Message_IsEvent : bool;
  Message_Payload : string
}.

Inductive RecvResult : Type :=
  | RecvErr (what : string)
  | RecvMsg (msg : Message).

(** The request of the subscribe handshake for a category name. *)
Definition subscribe_request (name : string) : string :=
  String "[" (String "034" (name +:+ String "034" "]")).

(** The node snapshot [I3Node] and the command code [I3Subscribe] are
    declared in other files of the package: the development is parametric
    in the node type, its zero value, the way [encoding/json] decodes into
    it, and the code. *)
Class Externals : Type := {
  I3Node : Type;
  I3Node_zero : I3Node;
  dec_I3Node : Dec I3Node;
  I3Subscribe : Z
}.

(** A name that can stand between quotes as it is: no quote, no
    backslash, no control character. *)
Definition plain_char (c : ascii) : bool :=
  negb (Ascii.eqb c "034") && negb (nat_of_ascii c <? 32)%nat && negb (Ascii.eqb c "\").

Fixpoint plain_name (s : string) : bool :=
  match s with
  | EmptyString => true
  | String c r => plain_char c && plain_name r
  end.

Section Subscribe.

Context {ext : Externals}.

Record WorkspaceEvent : Type := {
  WorkspaceEvent_Change : string;
  WorkspaceEvent_Current : I3Node;
  WorkspaceEvent_Old : I3Node
}.

Record WindowEvent : Type := {
  WindowEvent_Change : string;
  WindowEvent_Container : I3Node
}.

Definition dec_WorkspaceEvent : Dec WorkspaceEvent :=
  dec_struct "WorkspaceEvent"
    [("Change", field WorkspaceEvent_Change
        (fun a d => {| WorkspaceEvent_Change := a;
                       WorkspaceEvent_Current := WorkspaceEvent_Current d;
                       WorkspaceEvent_Old := WorkspaceEvent_Old d |})
        dec_string);
     ("Current", field WorkspaceEvent_Current
        (fun a d => {| WorkspaceEvent_Change := WorkspaceEvent_Change d;
                       WorkspaceEvent_Current := a;
                       WorkspaceEvent_Old := WorkspaceEvent_Old d |})
        dec_I3Node);
     ("Old", field WorkspaceEvent_Old
        (fun a d => {| WorkspaceEvent_Change := WorkspaceEvent_Change d;
                       WorkspaceEvent_Current := WorkspaceEvent_Current d;
                       WorkspaceEvent_Old := a |})
        dec_I3Node)].

Definition dec_WindowEvent : Dec WindowEvent :=
  dec_struct "WindowEvent"
    [("Change", field WindowEvent_Change
        (fun a d => {| WindowEvent_Change := a; WindowEvent_Container := WindowEvent_Container d |})
        dec_string);
     ("Container", field WindowEvent_Container
        (fun a d => {| WindowEvent_Change := WindowEvent_Change d; WindowEvent_Container := a |})
        dec_I3Node)].

Definition WorkspaceEvent_zero : WorkspaceEvent :=
  {| WorkspaceEvent_Change := EmptyString;
     WorkspaceEvent_Current := I3Node_zero;
     WorkspaceEvent_Old := I3Node_zero |}.
Definition WindowEvent_zero : WindowEvent :=
  {| WindowEvent_Change := EmptyString; WindowEvent_Container := I3Node_zero |}.

(** [Details interface{}]: nil, or one of the five detail structs. *)
Inductive Details : Type :=
  | NoDetails
  | OfWorkspaceEvent (d : WorkspaceEvent)
  | OfModeEvent (d : ModeEvent)
  | OfWindowEvent (d : WindowEvent)
  | OfBindingEvent (d : BindingEvent)
  | OfBaseEvent (d : BaseEvent).

Record Event : Type := {
  Event_Type : EventType;
  Event_Details : Details;
  Event_Change : string
}.

(** [addDetails(e, raw)]: the switch picks the detail struct, the payload
    is unmarshalled into a fresh one, and any error is fatal. *)
Definition addDetails (e : Event) (raw : string) : Outcome Event :=
  let '(details, change, err) :=
    if Event_Type e =? I3WorkspaceEvent then
      let '(d, err) := Unmarshal dec_WorkspaceEvent raw WorkspaceEvent_zero in
      (OfWorkspaceEvent d, WorkspaceEvent_Change d, err)
    else if Event_Type e =? I3ModeEvent then
      let '(d, err) := Unmarshal dec_ModeEvent raw ModeEvent_zero in
      (OfModeEvent d, ModeEvent_Change d, err)
    else if Event_Type e =? I3WindowEvent then
      let '(d, err) := Unmarshal dec_WindowEvent raw WindowEvent_zero in
      (OfWindowEvent d, WindowEvent_Change d, err)
    else if Event_Type e =? I3BindingEvent then
      let '(d, err) := Unmarshal dec_BindingEvent raw BindingEvent_zero in
      (OfBindingEvent d, BindingEvent_Change d, err)
    else
      let '(d, err) := Unmarshal dec_BaseEvent raw BaseEvent_zero in
      (OfBaseEvent d, BaseEvent_Change d, err) in
  match err with
  | Some x => Stop (FatalDecode x)
  | None =>
      Ok {| Event_Type := Event_Type e; Event_Details := details; Event_Change := change |}
  end.

(** The error, if any, that [json.Unmarshal] reports for a payload against
    the detail struct that the switch of [addDetails] picks for an event
    type: the payload does not match the structure expected for the
    type. *)
Definition decode_error (t : EventType) (raw : string) : option error :=
  if t =? I3WorkspaceEvent then snd (Unmarshal dec_WorkspaceEvent raw WorkspaceEvent_zero)
  else if t =? I3ModeEvent then snd (Unmarshal dec_ModeEvent raw ModeEvent_zero)
  else if t =? I3WindowEvent then snd (Unmarshal dec_WindowEvent raw WindowEvent_zero)
  else if t =? I3BindingEvent then snd (Unmarshal dec_BindingEvent raw BindingEvent_zero)
  else snd (Unmarshal dec_BaseEvent raw BaseEvent_zero).

(** Modelled from the spec: [IPCSocket] and [GetIPCSocket] are declared
    with the transport, in another file.  A socket has the [open] flag and
    the [subscribers] slice that this file reads and writes; [Raw] is the
    reply of its connection to a command (the reply body, or the text of a
    transport error), and [pending] holds the results that [recv] will
    return, oldest first.  A socket obtained from
    [GetIPCSocket] is open and has no subscriber. *)
Record IPCSocket : Type := {
  open : bool;
  subscribers : list nat;
  Raw : Z -> string -> string + string;
  pending : list RecvResult
}.

Definition new_socket (raw : Z -> string -> string + string) : IPCSocket :=
  {| open := true; subscribers := []; Raw := raw; pending := [] |}.

Definition set_open (b : bool) (s : IPCSocket) : IPCSocket :=
  {| open := b; subscribers := subscribers s; Raw := Raw s; pending := pending s |}.
Definition set_subscribers (l : list nat) (s : IPCSocket) : IPCSocket :=
  {| open := open s; subscribers := l; Raw := Raw s; pending := pending s |}.
Definition set_pending (l : list RecvResult) (s : IPCSocket) : IPCSocket :=
  {| open := open s; subscribers := subscribers s; Raw := Raw s; pending := l |}.

(** Where the goroutine running [listen] stands: at the head of the loop,
    inside [recv], inside the [range] over the subscribers it read when the
    loop started (with the ones still to serve), or past the [break].
    [decoded] is a history variable: the events [addDetails] has returned
    to this goroutine so far. *)
Inductive Pc : Type :=
  | AtTop
  | InRecv
  | InRange (event : Event) (rest : list nat)
  | Returned.

Record Listener : Type := {
  pc : Pc;
  decoded : list Event
}.

(** The state of the process.  [eventSockets] holds the sockets themselves
    (each pointer in the slice is the only reference to its socket),
    [listeners !! i] is the goroutine started on [eventSockets !! i],
    [chans] is the heap of channels (a channel value is its index),
    [dialed] counts the calls of [GetIPCSocket], and [exited] records that
    the process is gone. *)
Record World : Type := {
  payloads : list string;
  eventSockets : list IPCSocket;
  listeners : list Listener;
  chans : list (Chan.t Event);
  dialed : nat;
  exited : option Exit
}.

Definition set_payloads (x : list string) (w : World) : World :=
  {| payloads := x; eventSockets := eventSockets w; listeners := listeners w;
     chans := chans w; dialed := dialed w; exited := exited w |}.
Definition set_eventSockets (x : list IPCSocket) (w : World) : World :=
  {| payloads := payloads w; eventSockets := x; listeners := listeners w;
     chans := chans w; dialed := dialed w; exited := exited w |}.
Definition set_listeners (x : list Listener) (w : World) : World :=
  {| payloads := payloads w; eventSockets := eventSockets w; listeners := x;
     chans := chans w; dialed := dialed w; exited := exited w |}.
Definition set_chans (x : list (Chan.t Event)) (w : World) : World :=
  {| payloads := payloads w; eventSockets := eventSockets w; listeners := listeners w;
     chans := x; dialed := dialed w; exited := exited w |}.
Definition set_dialed (x : nat) (w : World) : World :=
  {| payloads := payloads w; eventSockets := eventSockets w; listeners := listeners w;
     chans := chans w; dialed := x; exited := exited w |}.
Definition set_exited (x : Exit) (w : World) : World :=
  {| payloads := payloads w; eventSockets := eventSockets w; listeners := listeners w;
     chans := chans w; dialed := dialed w; exited := Some x |}.

(** The process as the package's [var] declarations leave it. *)
Definition init : World :=
  {| payloads := payloads_init; eventSockets := []; listeners := [];
     chans := []; dialed := 0%nat; exited := None |}.

(** [AddEventType(name)]: the name is appended and the new last index is
    returned, converted to [EventType]. *)
Definition AddEventType (name : string) (w : World) : EventType * World :=
  let w' := set_payloads (payloads w ++ [name]) w in
  (int32 (Z.of_nat (length (payloads w')) - 1), w').

(** [socket.subscribe(eventType)], with [payloads] as it is at the call:
    the returned [err], or a panic when [payloads[eventType]] is out of
    range. *)
Definition subscribe (socket : IPCSocket) (names : list string) (eventType : EventType)
  : Outcome (option error) :=
  match index names eventType with
  | None => Stop (Panicked "index out of range")
  | Some name =>
      match Raw socket I3Subscribe (subscribe_request name) with
      | inr msg => Ok (Some (TransportError msg))
      | inl jsonReply =>
          let '(subsReply, err) :=
            Unmarshal dec_subscribeReply jsonReply {| Success := false |} in
          match err with
          | Some e => Ok (Some e)
          | None =>
              if negb (Success subsReply)
              then Ok (Some (SubscribeError "Could not subscribe."))
              else Ok None
          end
      end
  end.

(** [Subscribe(eventType)]: the pair [(subs, err)] it returns ([None] is
    the nil channel, resp. the nil error) and the state it leaves, or a
    panic when [eventSockets[eventType]] is out of range. *)
Definition Subscribe (eventType : EventType) (w : World)
  : Outcome (option nat * option error * World) :=
  if (eventType >=? eventmax) || (eventType <? 0) then
    Ok (None, Some (SubscribeError "No such event type."), w)
  else
    let subs := length (chans w) in
    let w1 := set_chans (chans w ++ [Chan.make 0]) w in
    match index (eventSockets w1) eventType with
    | None => Stop (Panicked "index out of range")
    | Some socket =>
        let socket' := set_subscribers (subscribers socket ++ [subs]) socket in
        Ok (Some subs, None,
            set_eventSockets (<[Z.to_nat eventType := socket']> (eventSockets w1)) w1)
    end.

(** The body of the [for] loop of [StartEventListener], [n] iterations from
    [ev] on.  [dial k] is what the [k]-th call of [GetIPCSocket] in the
    life of the process returns: the reply function of a fresh connection,
    or the text of a transport error.  The goroutines the loop starts take
    their first step once the call has returned. *)
Fixpoint start_sockets (n : nat) (ev : EventType)
    (dial : nat -> (Z -> string -> string + string) + string) (w : World) : World :=
  match n with
  | O => w
  | S n' =>
      let w1 := set_dialed (S (dialed w)) w in
      match dial (dialed w) with
      | inr msg => set_exited (FatalNoSocket (TransportError msg)) w1
      | inl raw =>
          let sock := new_socket raw in
          match subscribe sock (payloads w1) ev with
          | Stop x => set_exited x w1
          | Ok (Some err) => set_exited (FatalSubscribe err) w1
          | Ok None =>
              let w2 := set_listeners (listeners w1 ++ [{| pc := AtTop; decoded := [] |}]) w1 in
              let w3 := set_eventSockets (eventSockets w2 ++ [sock]) w2 in
              start_sockets n' (ev + 1) dial w3
          end
      end
  end.

(** [StartEventListener()]. *)
Definition StartEventListener
    (dial : nat -> (Z -> string -> string + string) + string) (w : World) : World :=
  if negb (Z.of_nat (length (payloads w)) =? eventmax) then
    set_exited (FatalPayloadCount (Z.of_nat (length (payloads w))) eventmax) w
  else start_sockets (Z.to_nat (eventmax - 0)) 0 dial w.

(** [var event Event; event.Type = EventType(msg.Type)]. *)
Definition zero_event (t : EventType) : Event :=
  {| Event_Type := t; Event_Details := NoDetails; Event_Change := EmptyString |}.

(** The event a result of [recv] leads [listen] to broadcast, if any. *)
Definition frame_event (r : RecvResult) : option Event :=
  match r with
  | RecvErr _ => None
  | RecvMsg msg =>
      if Message_IsEvent msg then
        match addDetails (zero_event (Message_Type msg)) (Message_Payload msg) with
        | Ok event => Some event
        | Stop _ => None
        end
      else None
  end.

Definition set_pc (i : nat) (p : Pc) (w : World) : World :=
  match listeners w !! i with
  | Some l => set_listeners (<[i := {| pc := p; decoded := decoded l |}]> (listeners w)) w
  | None => w
  end.

(** One step of the goroutine that runs [listen] on socket [i]. *)
Definition listen_step (i : nat) (w : World) : World :=
  match eventSockets w !! i, listeners w !! i with
  | Some socket, Some l =>
      match pc l with
      | AtTop =>
          if negb (open socket) then set_pc i Returned w else set_pc i InRecv w
      | InRecv =>
          match pending socket with
          | [] => w
          | r :: rest =>
              let w1 := set_eventSockets (<[i := set_pending rest socket]> (eventSockets w)) w in
              match r with
              | RecvErr _ => set_pc i AtTop w1
              | RecvMsg msg =>
                  if negb (Message_IsEvent msg) then set_pc i AtTop w1
                  else
                    match addDetails (zero_event (Message_Type msg)) (Message_Payload msg) with
                    | Stop x => set_exited x w1
                    | Ok event =>
                        set_listeners
                          (<[i := {| pc := InRange event (subscribers socket);
                                     decoded := decoded l ++ [event] |}]> (listeners w1)) w1
                    end
              end
          end
      | InRange event [] => set_pc i AtTop w
      | InRange event (subscriber :: rest) =>
          let w1 :=
            match chans w !! subscriber with
            | Some c => set_chans (<[subscriber := fst (Chan.try_send event c)]> (chans w)) w
            | None => w
            end in
          set_pc i (InRange event rest) w1
      | Returned => w
      end
  | _, _ => w
  end.

(** What can happen next in the process: a call of one of the three
    exported functions; a step of the goroutine listening on socket [i]; a
    result that the connection of socket [i] makes available to [recv]; the
    owner of socket [i] clearing its [open] flag; a consumer starting a
    receive on channel [c], or giving up one it was parked in. *)
Inductive Action : Type :=
  | CallStartEventListener (dial : nat -> (Z -> string -> string + string) + string)
  | CallAddEventType (name : string)
  | CallSubscribe (eventType : EventType)
  | Listen (i : nat)
  | Arrive (i : nat) (r : RecvResult)
  | CloseSocket (i : nat)
  | Receive (c : nat)
  | Leave (c : nat).

(** The state after an action; nothing happens in a process that has
    exited. *)
Definition step (a : Action) (w : World) : World :=
  match exited w with
  | Some _ => w
  | None =>
      match a with
      | CallStartEventListener dial => StartEventListener dial w
      | CallAddEventType name => snd (AddEventType name w)
      | CallSubscribe eventType =>
          match Subscribe eventType w with
          | Ok (_, _, w') => w'
          | Stop x => set_exited x w
          end
      | Listen i => listen_step i w
      | Arrive i r =>
          match eventSockets w !! i with
          | Some socket =>
              set_eventSockets
                (<[i := set_pending (pending socket ++ [r]) socket]> (eventSockets w)) w
          | None => w
          end
      | CloseSocket i =>
          match eventSockets w !! i with
          | Some socket => set_eventSockets (<[i := set_open false socket]> (eventSockets w)) w
          | None => w
          end
      | Receive c =>
          match chans w !! c with
          | Some ch => set_chans (<[c := Chan.recv ch]> (chans w)) w
          | None => w
          end
      | Leave c =>
          match chans w !! c with
          | Some ch =>
              set_chans (<[c := Chan.mk (Chan.cap ch) (Chan.buf ch) (Chan.recvq ch - 1)
                                      (Chan.received ch)]> (chans w)) w
          | None => w
          end
      end
  end.

Definition run (acts : list Action) (w : World) : World :=
  fold_left (fun w a => step a w) acts w.

(** The states the process can be in. *)
Definition reachable (w : World) : Prop := exists acts, w = run acts init.

(** The results of [recv] that a run hands to socket [i], in order. *)
Definition frames_for (i : nat) (acts : list Action) : list RecvResult :=
  omap (fun a => match a with
                 | Arrive j r => if decide (j = i) then Some r else None
                 | _ => None
                 end) acts.

(** The whole [range] loop of [listen] at once. *)
Definition broadcast (event : Event) (subs : list nat) (cs : list (Chan.t Event))
  : list (Chan.t Event) :=
  fold_left (fun cs subscriber =>
               match cs !! subscriber with
               | Some c => <[subscriber := fst (Chan.try_send event c)]> cs
               | None => cs
               end) subs cs.

(** *** The shape of reachable states

    [shape S L C] relates the subscriber slices [S] of the sockets, the
    goroutines [L] and the channel heap [C]: every subscriber is an
    unbuffered channel of the heap, no channel is subscribed twice, on one
    socket or on two, and the subscribers a goroutine still has to serve
    are distinct subscribers of its socket. *)
Definition shape (S : list (list nat)) (L : list Listener) (C : list (Chan.t Event)) : Prop :=
  length L = length S
  /\ (forall i subs c, S !! i = Some subs -> c ∈ subs ->
        exists ch, C !! c = Some ch /\ Chan.cap ch = 0%nat /\ Chan.buf ch = [])
  /\ (forall i subs, S !! i = Some subs -> NoDup subs)
  /\ (forall i j si sj c, S !! i = Some si -> S !! j = Some sj -> c ∈ si -> c ∈ sj -> i = j)
  /\ (forall i subs l e rest, S !! i = Some subs -> L !! i = Some l ->
        pc l = InRange e rest -> NoDup rest /\ rest ⊆ subs).

Definition well_formed (w : World) : Prop :=
  shape (subscribers <$> eventSockets w) (listeners w) (chans w)
  /\ payloads_init `prefix_of` payloads w.

(** *** What a subscriber has received, against what its socket was fed

    [hist acts S P L C]: for every socket, with subscribers [S !! i],
    results still to be returned by [recv] [P !! i] and goroutine
    [L !! i], the events decoded so far followed by those still to come
    are a subsequence of the events of the frames the run [acts] has fed
    to the socket; every subscriber has received a subsequence of the
    decoded events; and while the goroutine is inside the [range] loop for
    the last decoded event, the subscribers not yet served have received a
    subsequence of the events before it. *)
Definition hist (acts : list Action) (S : list (list nat)) (P : list (list RecvResult))
    (L : list Listener) (C : list (Chan.t Event)) : Prop :=
  forall i subs pend l, S !! i = Some subs -> P !! i = Some pend -> L !! i = Some l ->
    sublist (decoded l ++ omap frame_event pend) (omap frame_event (frames_for i acts))
    /\ (forall c ch, c ∈ subs -> C !! c = Some ch -> sublist (Chan.received ch) (decoded l))
    /\ (forall e rest, pc l = InRange e rest ->
          exists evs, decoded l = evs ++ [e]
                      /\ forall c ch, c ∈ rest -> C !! c = Some ch ->
                                      sublist (Chan.received ch) evs).

Definition history (acts : list Action) (w : World) : Prop :=
  hist acts (subscribers <$> eventSockets w) (pending <$> eventSockets w)
       (listeners w) (chans w).

(** A result of [recv] that [listen] drops: an error, or a message that is
    not an event. *)
Definition dropped (r : RecvResult) : Prop :=
  match r with
  | RecvErr _ => True
  | RecvMsg msg => Message_IsEvent msg = false
  end.

(** *** Notions for further facts *)

(** The [Change] field of the struct that [Details] holds. *)
Definition Details_Change (d : Details) : string :=
  match d with
  | NoDetails => EmptyString
  | OfWorkspaceEvent d => WorkspaceEvent_Change d
  | OfModeEvent d => ModeEvent_Change d
  | OfWindowEvent d => WindowEvent_Change d
  | OfBindingEvent d => BindingEvent_Change d
  | OfBaseEvent d => BaseEvent_Change d
  end.

(** The dynamic type of [Details] is the one that goes with the event
    type: the struct a consumer has to assert to. *)
Definition Details_for (t : EventType) (d : Details) : Prop :=
  match d with
  | NoDetails => False
  | OfWorkspaceEvent _ => t = I3WorkspaceEvent
  | OfModeEvent _ => t = I3ModeEvent
  | OfWindowEvent _ => t = I3WindowEvent
  | OfBindingEvent _ => t = I3BindingEvent
  | OfBaseEvent _ =>
      t <> I3WorkspaceEvent /\ t <> I3ModeEvent /\ t <> I3WindowEvent /\ t <> I3BindingEvent
  end.

(** Iteration [k] of the loop of [StartEventListener] goes through, when
    [base] calls of [GetIPCSocket] came before the loop: the call returns a
    connection, and the server accepts the subscription to type [k]. *)
Definition iteration_ok (dial : nat -> (Z -> string -> string + string) + string)
    (names : list string) (base k : nat) : Prop :=
  exists raw, dial (base + k)%nat = inl raw
              /\ subscribe (new_socket raw) names (Z.of_nat k) = Ok None.


(** The goroutine of socket [i] has returned from [listen] with [evs]
    decoded; since then the process has made no channel disappear, and
    every subscriber of the socket has received what it had received in
    the channels [C0] of that moment, nothing if it was made later. *)
Definition stopped (i : nat) (C0 : list (Chan.t Event)) (evs : list Event) (w : World) : Prop :=
  (length C0 <= length (chans w))%nat
  /\ listeners w !! i = Some {| pc := Returned; decoded := evs |}
  /\ forall c socket, eventSockets w !! i = Some socket -> c ∈ subscribers socket ->
       exists ch, chans w !! c = Some ch
                  /\ Chan.received ch = from_option Chan.received [] (C0 !! c).


End Subscribe.

(** ** Concrete runs

    The facts below hold for every node type.  To run the definitions, a
    node that keeps the identifier alone stands in for [I3Node], the
    subscribe command has the code it has in the i3 protocol, and the
    server accepts every subscription. *)
Module Sample.

Record Node : Type := { Id : Z }.

Definition dec_Node : Dec Node :=
  dec_struct "I3Node" [("Id", field Id (fun a _ => {| Id := a |}) dec_int)].

Definition externals : Externals :=
  {| I3Node := Node; I3Node_zero := {| Id := 0 |}; dec_I3Node := dec_Node; I3Subscribe := 2 |}.

Definition accept : Z -> string -> string + string :=
  fun _ _ => inl (json_text "{'success':true}").

Definition dial : nat -> (Z -> string -> string + string) + string :=
  fun _ => inl accept.

Definition exec (acts : list Action) : @World externals := @run externals acts init.

(** After [StartEventListener]. *)
Definition started : @World externals := exec [CallStartEventListener dial].

Definition focus : Message :=
  {| Message_Type := I3WindowEvent; Message_IsEvent := true;
     Message_Payload := json_text "{'change':'focus','container':{'id':1}}" |}.

Definition title : Message :=
  {| Message_Type := I3WindowEvent; Message_IsEvent := true;
     Message_Payload := json_text "{'change':'title','container':{'id':1}}" |}.

Definition reply : Message :=
  {| Message_Type := 1; Message_IsEvent := false; Message_Payload := "[]" |}.

(** An output event whose [change] is a number. *)
Definition bad_output : Message :=
  {| Message_Type := I3OutputEvent; Message_IsEvent := true;
     Message_Payload := json_text "{'change':1}" |}.

Definition focus_event : @Event externals :=
  {| Event_Type := I3WindowEvent;
     Event_Details :=
       OfWindowEvent {| WindowEvent_Change := "focus";
                        WindowEvent_Container := {| Id := 1 |} : @I3Node externals |};
     Event_Change := "focus" |}.

Definition title_event : @Event externals :=
  {| Event_Type := I3WindowEvent;
     Event_Details :=
       OfWindowEvent {| WindowEvent_Change := "title";
                        WindowEvent_Container := {| Id := 1 |} : @I3Node externals |};
     Event_Change := "title" |}.

(** Two subscribers of window events; the consumer of the first is
    waiting when the first frame is broadcast, nobody is waiting for the
    second frame. *)
Definition two_frames : list Action :=
  [CallStartEventListener dial; CallSubscribe I3WindowEvent; CallSubscribe I3WindowEvent;
   Receive 0; Arrive 3 (RecvMsg focus); Arrive 3 (RecvMsg reply); Arrive 3 (RecvMsg title);
   Listen 3; Listen 3; Listen 3; Listen 3; Listen 3;
   Listen 3; Listen 3;
   Listen 3; Listen 3; Listen 3; Listen 3; Listen 3].

End Sample.

(** ** Basic facts *)

Section Facts.

Context {ext : Externals}.

Lemma int32_small (z : Z) : - 2 ^ 31 <= z < 2 ^ 31 -> int32 z = z.
Proof. intros H. unfold int32. rewrite Z.mod_small; lia. Qed.

Lemma index_Some {A : Type} (l : list A) (i : Z) (x : A) :
  index l i = Some x <-> 0 <= i /\ l !! Z.to_nat i = Some x.
Proof.
  unfold index. destruct (Z.ltb_spec i 0); split.
  - discriminate.
  - intros [? _]. lia.
  - auto.
  - tauto.
Qed.

Lemma index_of_nat {A : Type} (l : list A) (n : nat) : index l (Z.of_nat n) = l !! n.
Proof.
  unfold index. destruct (Z.ltb_spec (Z.of_nat n) 0); [lia|]. by rewrite Nat2Z.id.
Qed.

Lemma step_exited (a : Action) (w : World) (x : Exit) : exited w = Some x -> step a w = w.
Proof. intros H. unfold step. by rewrite H. Qed.

Lemma run_exited (acts : list Action) (w : World) (x : Exit) :
  exited w = Some x -> run acts w = w.
Proof.
  intros H. induction acts as [|a acts IH]; [done|].
  unfold run in *. simpl. by rewrite (step_exited a w x H).
Qed.

Lemma run_cons (a : Action) (acts : list Action) (w : World) :
  run (a :: acts) w = run acts (step a w).
Proof. reflexivity. Qed.

Lemma run_snoc (acts : list Action) (a : Action) (w : World) :
  run (acts ++ [a]) w = step a (run acts w).
Proof. unfold run. by rewrite fold_left_app. Qed.

Lemma addDetails_decode_error (e : Event) (raw : string) (err : error) :
  decode_error (Event_Type e) raw = Some err -> addDetails e raw = Stop (FatalDecode err).
Proof.
  unfold decode_error, addDetails.
  repeat match goal with
         | |- context [if ?b then _ else _] => destruct b
         | |- context [Unmarshal ?d ?r ?z] => destruct (Unmarshal d r z) as [? [?|]]
         end; cbn; congruence.
Qed.

Lemma addDetails_no_decode_error (e : Event) (raw : string) :
  decode_error (Event_Type e) raw = None ->
  exists e', addDetails e raw = Ok e' /\ Event_Type e' = Event_Type e.
Proof.
  unfold decode_error, addDetails.
  repeat match goal with
         | |- context [if ?b then _ else _] => destruct b
         | |- context [Unmarshal ?d ?r ?z] => destruct (Unmarshal d r z) as [? [?|]]
         end; cbn; try discriminate; eauto.
Qed.

(** [dec_members] for a struct whose only field is a boolean or a string
    reports nothing but type mismatches. *)
Lemma dec_subscribeReply_error (v : json) (d r : subscribeReply) (e : error) :
  dec_subscribeReply v d = (r, Some e) -> exists a b, e = UnmarshalTypeError a b.
Proof.
  unfold dec_subscribeReply, dec_struct.
  destruct v as [| | | | |ms]; try (intros [= <- <-]; eauto); try discriminate.
  revert d r e. induction ms as [|[k v] ms IH]; intros d r e; simpl; [discriminate|].
  destruct (find_field k _) as [dec|] eqn:Hf; [|by apply IH].
  assert (dec = field Success (fun a _ => {| Success := a |}) dec_bool) as ->.
  { unfold find_field in Hf. cbn [List.find fst snd] in Hf.
    destruct (String.eqb "Success" k); [by injection Hf as <-|].
    destruct (fold_eqb "Success" k); cbn in Hf; congruence. }
  unfold field at 1.
  destruct (dec_bool v (Success d)) as [a e1] eqn:Hb.
  destruct (dec_members _ ms _) as [d2 e2] eqn:Hm.
  intros [= <- He].
  destruct e1 as [e1|]; simpl in He.
  - injection He as <-. unfold dec_bool in Hb. destruct v; inversion Hb; eauto.
  - subst e2. by eapply IH.
Qed.

Lemma Unmarshal_subscribeReply_error (raw : string) (d r : subscribeReply) (e : error) :
  Unmarshal dec_subscribeReply raw d = (r, Some e) ->
  e = SyntaxError \/ exists a b, e = UnmarshalTypeError a b.
Proof.
  unfold Unmarshal. destruct (scan raw) as [v|].
  - intros H. right. by eapply dec_subscribeReply_error.
  - intros [= <- <-]. by left.
Qed.


Lemma scan_string_plain (name rest : string) :
  plain_name name = true ->
  scan_string (name +:+ String "034" rest) = Some (name, rest).
Proof.
  induction name as [|c name IH]; intros Hp.
  - reflexivity.
  - simpl in Hp. apply andb_prop in Hp as [Hc Hn].
    unfold plain_char in Hc.
    apply andb_prop in Hc as [Hc H3]. apply andb_prop in Hc as [H1 H2].
    apply negb_true_iff in H1, H2, H3.
    change (String c name +:+ String "034" rest)
      with (String c (name +:+ String "034" rest)).
    cbn [scan_string]. rewrite H1, H2, H3, (IH Hn). reflexivity.
Qed.

Lemma scan_value_quote (fuel : nat) (s : string) :
  scan_value (S fuel) (String "034" s) = '(t, r) ← scan_string s; Some (JString t, r).
Proof. reflexivity. Qed.

Lemma scan_value_bracket_quote (fuel : nat) (s : string) :
  scan_value (S fuel) (String "[" (String "034" s))
  = '(vs, r) ← scan_elements fuel (String "034" s); Some (JArray vs, r).
Proof. reflexivity. Qed.

Lemma scan_elements_last (fuel : nat) (s : string) (v : json) :
  scan_value fuel s = Some (v, "]") -> scan_elements (S fuel) s = Some ([v], EmptyString).
Proof. intros H. cbn [scan_elements]. rewrite H. reflexivity. Qed.

Lemma scan_subscribe_request (name : string) :
  plain_name name = true ->
  scan (subscribe_request name) = Some (JArray [JString name]).
Proof.
  intros Hp. unfold scan, subscribe_request.
  remember (2 * String.length (String "[" (String "034" (name +:+ String "034" "]"))) + 2)%nat
    as fuel eqn:Hfuel.
  assert (3 <= fuel)%nat as Hge by (subst fuel; simpl; lia).
  destruct fuel as [|[|[|fuel]]]; try lia.
  rewrite scan_value_bracket_quote.
  rewrite (scan_elements_last (S fuel) _ (JString name)); [reflexivity|].
  rewrite scan_value_quote, (scan_string_plain name "]" Hp). reflexivity.
Qed.


(** ** The registry *)

Lemma run_AddEventType_replicate (n : nat) (name : string) (w : World) :
  exited w = None ->
  run (replicate n (CallAddEventType name)) w
  = set_payloads (payloads w ++ replicate n name) w.
Proof.
  revert w. induction n as [|n IH]; intros w Hrun.
  - cbn. rewrite app_nil_r. by destruct w.
  - cbn [replicate]. rewrite run_cons.
    assert (step (CallAddEventType name) w = set_payloads (payloads w ++ [name]) w) as ->
      by (unfold step; by rewrite Hrun).
    rewrite IH by done. cbn [payloads set_payloads]. unfold set_payloads. cbn.
    by rewrite <- app_assoc.
Qed.

(** C9 (as amended).  While the table holds fewer than 2^31 names,
    [AddEventType] returns the size the table had before the call, the
    name found at that index afterwards is the registered one, and every
    earlier entry stays where it was. *)
Theorem AddEventType_returns_previous_size (name : string) (w : World) :
  Z.of_nat (length (payloads w)) < 2 ^ 31 ->
  fst (AddEventType name w) = Z.of_nat (length (payloads w))
  /\ index (payloads (snd (AddEventType name w))) (fst (AddEventType name w)) = Some name
  /\ (forall i n, index (payloads w) i = Some n ->
                  index (payloads (snd (AddEventType name w))) i = Some n).
Proof.
  intros Hsize. unfold AddEventType. cbn [fst snd set_payloads payloads].
  rewrite length_app. cbn [length].
  replace (Z.of_nat (length (payloads w) + 1) - 1) with (Z.of_nat (length (payloads w))) by lia.
  rewrite int32_small by lia.
  split; [reflexivity|]. split.
  - rewrite index_of_nat. rewrite lookup_app_r by lia.
    by rewrite Nat.sub_diag.
  - intros i n [Hi Hn]%index_Some. apply index_Some. split; [done|].
    by apply lookup_app_l_Some.
Qed.

(** ** Startup *)

(** C5.  When the length of [payloads] differs from [eventmax],
    [StartEventListener] exits through [log.Fatalf] at once:
    [GetIPCSocket] has not been called, no goroutine has been started, no
    socket has been stored, and nothing runs afterwards. *)
Theorem StartEventListener_count_mismatch_is_fatal
    (dial : nat -> (Z -> string -> string + string) + string) (w : World) :
  exited w = None ->
  Z.of_nat (length (payloads w)) <> eventmax ->
  let w' := step (CallStartEventListener dial) w in
  exited w' = Some (FatalPayloadCount (Z.of_nat (length (payloads w))) eventmax)
  /\ dialed w' = dialed w
  /\ eventSockets w' = eventSockets w
  /\ listeners w' = listeners w
  /\ forall acts, run acts w' = w'.
Proof.
  intros Hrun Hne w'. subst w'. unfold step. rewrite Hrun.
  unfold StartEventListener.
  destruct (Z.eqb_spec (Z.of_nat (length (payloads w))) eventmax) as [Heq|_]; [done|].
  cbn [negb]. repeat split; try reflexivity.
  intros acts. by eapply run_exited.
Qed.

(** ** Reachable states are well formed *)

Lemma shape_init : shape [] [] [].
Proof. repeat split; intros *; rewrite ?lookup_nil; discriminate. Qed.

(** A channel that stays unbuffered and empty may change otherwise. *)
Lemma shape_update_chan S L C (c : nat) (ch ch' : Chan.t Event) :
  shape S L C -> C !! c = Some ch ->
  (Chan.cap ch = 0%nat -> Chan.buf ch = [] -> Chan.cap ch' = 0%nat /\ Chan.buf ch' = []) ->
  shape S L (<[c := ch']> C).
Proof.
  intros (Hlen & Hch & Hnd & Hdisj & Hrest) Hc Hkeep.
  repeat split; eauto.
  - (* the subscribers still name unbuffered channels *)
    assert (forall i subs c0, S !! i = Some subs -> c0 ∈ subs ->
              exists ch0, <[c := ch']> C !! c0 = Some ch0
                          /\ Chan.cap ch0 = 0%nat /\ Chan.buf ch0 = []) as H; [|exact H].
    intros i subs c0 Hi Hin. destruct (Hch i subs c0 Hi Hin) as (ch0 & H0 & Hcap & Hbuf).
    destruct (decide (c = c0)) as [->|Hne].
    + exists ch'. rewrite list_lookup_insert_eq by (by eapply lookup_lt_Some).
      split; [done|]. apply Hkeep; congruence.
    + exists ch0. by rewrite list_lookup_insert_ne.
  - eapply Hrest; eauto.
  - eapply Hrest; eauto.
Qed.

(** A goroutine may move to any point at which it owes nothing, or to a
    range over distinct subscribers of its socket. *)
Lemma shape_update_listener S L C (i : nat) (l' : Listener) :
  shape S L C ->
  (forall subs e rest, S !! i = Some subs -> pc l' = InRange e rest -> NoDup rest /\ rest ⊆ subs) ->
  shape S (<[i := l']> L) C.
Proof.
  intros (Hlen & Hch & Hnd & Hdisj & Hrest) Hnew.
  split; [by rewrite length_insert|]. do 3 (split; [done|]).
  intros j subs l e rest Hj Hl Hpc.
  destruct (decide (i = j)) as [->|Hne].
  - apply list_lookup_insert_Some in Hl as [[_ [<- _]]|[? _]]; [|done].
    by eapply Hnew.
  - rewrite list_lookup_insert_ne in Hl by done. by eapply Hrest.
Qed.

(** A new socket, without subscribers, and its goroutine. *)
Lemma shape_new_socket S L C :
  shape S L C -> shape (S ++ [[]]) (L ++ [{| pc := AtTop; decoded := [] |}]) C.
Proof.
  intros (Hlen & Hch & Hnd & Hdisj & Hrest).
  assert (forall i subs, (S ++ [[]]) !! i = Some subs ->
            S !! i = Some subs \/ (i = length S /\ subs = [])) as Hcase.
  { intros i subs [?|(? & [Hz <-]%list_lookup_singleton_Some)]%lookup_app_Some; [by left|].
    right. split; [lia|done]. }
  split; [rewrite !length_app; simpl; lia|].
  split; [|split; [|split]].
  - intros i subs c [Hi|[-> ->]]%Hcase Hin; [by eapply Hch|by apply elem_of_nil in Hin].
  - intros i subs [Hi|[-> ->]]%Hcase; [by eapply Hnd|constructor].
  - intros i j si sj c [Hi|[-> ->]]%Hcase [Hj|[-> ->]]%Hcase Hci Hcj;
      try (by apply elem_of_nil in Hci); try (by apply elem_of_nil in Hcj).
    by eapply Hdisj.
  - intros i subs l e rest [Hi|[-> ->]]%Hcase Hl Hpc.
    + apply lookup_app_Some in Hl as [Hl|(Hge & Hl)]; [by eapply Hrest|].
      apply lookup_lt_Some in Hi. lia.
    + apply lookup_app_Some in Hl as [Hl|(_ & Hl)].
      * apply lookup_lt_Some in Hl. lia.
      * rewrite Hlen, Nat.sub_diag in Hl. injection Hl as <-. discriminate.
Qed.

(** [Subscribe]: a fresh unbuffered channel joins the subscribers of one
    socket. *)
Lemma shape_new_subscriber S L C (i : nat) (subs : list nat) :
  shape S L C -> S !! i = Some subs ->
  shape (<[i := subs ++ [length C]]> S) L (C ++ [Chan.make 0]).
Proof.
  intros (Hlen & Hch & Hnd & Hdisj & Hrest) Hi.
  assert (forall j sj, S !! j = Some sj -> length C ∉ sj) as Hfresh.
  { intros j sj Hj Hin. destruct (Hch j sj _ Hj Hin) as (ch & Hc & _).
    apply lookup_lt_Some in Hc. lia. }
  assert (forall j sj, <[i := subs ++ [length C]]> S !! j = Some sj ->
            (j = i /\ sj = subs ++ [length C]) \/ (j <> i /\ S !! j = Some sj)) as Hcase.
  { intros j sj [[-> [<- _]]|[? ?]]%list_lookup_insert_Some; [by left|right; by split]. }
  split; [by rewrite length_insert|].
  split; [|split; [|split]].
  - intros j sj c [[-> ->]|[Hne Hj]]%Hcase Hin.
    + apply elem_of_app in Hin as [Hin| ->%list_elem_of_singleton].
      * destruct (Hch i subs c Hi Hin) as (ch & Hc & ?). exists ch.
        split; [by apply lookup_app_l_Some|done].
      * exists (Chan.make 0). split; [|done].
        rewrite lookup_app_r by lia. by rewrite Nat.sub_diag.
    + destruct (Hch j sj c Hj Hin) as (ch & Hc & ?). exists ch.
      split; [by apply lookup_app_l_Some|done].
  - intros j sj [[-> ->]|[Hne Hj]]%Hcase; [|by eapply Hnd].
    apply NoDup_app. split; [by eapply Hnd|]. split; [|apply NoDup_singleton].
    intros c Hin ->%list_elem_of_singleton. by eapply Hfresh.
  - intros j k sj sk c [[-> ->]|[Hnj Hj]]%Hcase [[-> ->]|[Hnk Hk]]%Hcase Hcj Hck; [done| | |].
    + apply elem_of_app in Hcj as [Hcj| ->%list_elem_of_singleton]; [by eapply Hdisj|].
      by apply Hfresh in Hk.
    + apply elem_of_app in Hck as [Hck| ->%list_elem_of_singleton]; [by eapply Hdisj|].
      by apply Hfresh in Hj.
    + by eapply Hdisj.
  - intros j sj l e rest [[-> ->]|[Hne Hj]]%Hcase Hl Hpc; [|by eapply Hrest].
    destruct (Hrest i subs l e rest Hi Hl Hpc) as [? Hsub]. split; [done|].
    intros c Hc. apply elem_of_app. left. by apply Hsub.
Qed.


Lemma fmap_insert_same {A B : Type} (f : A -> B) (l : list A) (i : nat) (x y : A) :
  l !! i = Some x -> f y = f x -> f <$> <[i := y]> l = f <$> l.
Proof.
  intros Hi Hf. rewrite list_fmap_insert. apply list_insert_id.
  rewrite list_lookup_fmap, Hi. simpl. by rewrite Hf.
Qed.

Lemma try_send_keeps_unbuffered (x : Event) (ch : Chan.t Event) :
  Chan.cap ch = 0%nat -> Chan.buf ch = [] ->
  Chan.cap (fst (Chan.try_send x ch)) = 0%nat /\ Chan.buf (fst (Chan.try_send x ch)) = [].
Proof.
  intros Hcap Hbuf. unfold Chan.try_send.
  destruct (0 <? Chan.recvq ch)%nat; [done|].
  rewrite Hcap, Hbuf. done.
Qed.

Lemma recv_keeps_unbuffered (ch : Chan.t Event) :
  Chan.cap ch = 0%nat -> Chan.buf ch = [] ->
  Chan.cap (Chan.recv ch) = 0%nat /\ Chan.buf (Chan.recv ch) = [].
Proof. intros Hcap Hbuf. unfold Chan.recv. by rewrite Hbuf. Qed.

Lemma well_formed_set_pc (i : nat) (p : Pc) (w : World) :
  well_formed w ->
  (forall socket e rest, eventSockets w !! i = Some socket -> p = InRange e rest ->
     NoDup rest /\ rest ⊆ subscribers socket) ->
  well_formed (set_pc i p w).
Proof.
  intros [Hs Hp] Hnew. unfold set_pc. destruct (listeners w !! i) as [l|]; [|done].
  split; [|done]. cbn. apply shape_update_listener; [done|].
  intros subs e rest Hi Hpc. rewrite list_lookup_fmap in Hi.
  destruct (eventSockets w !! i) as [socket|]; [|done]. injection Hi as <-.
  by eapply Hnew.
Qed.

Lemma well_formed_same (w w' : World) :
  well_formed w ->
  subscribers <$> eventSockets w' = subscribers <$> eventSockets w ->
  listeners w' = listeners w -> chans w' = chans w -> payloads w' = payloads w ->
  well_formed w'.
Proof. unfold well_formed. by intros ? -> -> -> ->. Qed.

Lemma well_formed_start_sockets (n : nat) (ev : Z)
    (dial : nat -> (Z -> string -> string + string) + string) (w : World) :
  well_formed w -> well_formed (start_sockets n ev dial w).
Proof.
  revert ev w. induction n as [|n IH]; intros ev w Hw; [done|].
  cbn [start_sockets]. destruct (dial (dialed w)) as [raw|msg]; [|done].
  destruct (subscribe _ _ _) as [[err|]|x]; [done| |done].
  apply IH. destruct Hw as [Hs Hp]. split; [|done]. cbn.
  rewrite fmap_app. by apply shape_new_socket.
Qed.

Lemma well_formed_Subscribe (ev : Z) (w w' : World) (res : option nat * option error) :
  well_formed w -> Subscribe ev w = Ok (res, w') -> well_formed w'.
Proof.
  intros [Hs Hp]. unfold Subscribe.
  destruct (_ || _); [by intros [= <- <-]|].
  destruct (index _ ev) as [socket|] eqn:Hi; [|done].
  intros [= <- <-]. split; [|done]. cbn in *.
  apply index_Some in Hi as [_ Hi].
  rewrite list_fmap_insert. cbn. apply shape_new_subscriber; [done|].
  by rewrite list_lookup_fmap, Hi.
Qed.

Lemma well_formed_listen_step (i : nat) (w : World) :
  well_formed w -> well_formed (listen_step i w).
Proof.
  intros Hw. unfold listen_step.
  destruct (eventSockets w !! i) as [socket|] eqn:Hsock; [|done].
  destruct (listeners w !! i) as [l|] eqn:Hl; [|done].
  destruct (pc l) as [| |event [|subscriber rest]|] eqn:Hpc; try done.
  - destruct (open socket); apply well_formed_set_pc; try done; discriminate.
  - destruct (pending socket) as [|r rest]; [done|].
    set (w1 := set_eventSockets _ w).
    assert (well_formed w1) as Hw1.
    { eapply well_formed_same; [exact Hw| |done..]. cbn. by eapply fmap_insert_same. }
    destruct r as [what|msg]; [apply well_formed_set_pc; [done|discriminate]|].
    destruct (Message_IsEvent msg); cbn [negb];
      [|apply well_formed_set_pc; [done|discriminate]].
    destruct (addDetails _ _) as [event|x]; [|done].
    destruct Hw1 as [Hs1 Hp1]. split; [|done]. cbn in *.
    apply shape_update_listener; [done|].
    intros subs e rest' Hi [= _ <-]. rewrite list_lookup_fmap in Hi.
    rewrite list_lookup_insert_eq in Hi by (by eapply lookup_lt_Some).
    injection Hi as <-. cbn. split; [|done].
    destruct Hw as [(_ & _ & Hnd & _) _]. eapply (Hnd i).
    by rewrite list_lookup_fmap, Hsock.
  - apply well_formed_set_pc; [done|discriminate].
  - destruct Hw as [Hs Hp].
    destruct (Hs) as (_ & Hch & _ & _ & Hrest).
    destruct (Hrest i (subscribers socket) l event (subscriber :: rest)) as [Hnd Hsub];
      [by rewrite list_lookup_fmap, Hsock|done|done|].
    apply well_formed_set_pc.
    + destruct (chans w !! subscriber) as [c|] eqn:Hc; [|done].
      split; [|done]. cbn. eapply shape_update_chan; [done..|].
      apply try_send_keeps_unbuffered.
    + intros socket' e rest' Hs' [= _ <-].
      assert (socket' = socket) as ->.
      { destruct (chans w !! subscriber); cbn in Hs'; congruence. }
      apply NoDup_cons in Hnd as [_ Hnd]. split; [done|].
      intros c Hc. apply Hsub. by apply elem_of_cons; right.
Qed.

Lemma well_formed_step (a : Action) (w : World) : well_formed w -> well_formed (step a w).
Proof.
  intros Hw. unfold step. destruct (exited w); [done|].
  destruct a as [dial|name|ev|i|i r|i|c|c].
  - unfold StartEventListener. destruct (negb _); [done|].
    by apply well_formed_start_sockets.
  - destruct Hw as [Hs Hp]. split; [done|]. cbn. by apply prefix_app_r.
  - destruct (Subscribe ev w) as [[res w']|x] eqn:HS; [|done].
    destruct res. by eapply well_formed_Subscribe.
  - by apply well_formed_listen_step.
  - destruct (eventSockets w !! i) as [socket|] eqn:Hi; [|done].
    eapply well_formed_same; [exact Hw| |done..]. cbn. by eapply fmap_insert_same.
  - destruct (eventSockets w !! i) as [socket|] eqn:Hi; [|done].
    eapply well_formed_same; [exact Hw| |done..]. cbn. by eapply fmap_insert_same.
  - destruct (chans w !! c) as [ch|] eqn:Hc; [|done].
    destruct Hw as [Hs Hp]. split; [|done]. cbn.
    eapply shape_update_chan; [done..|]. apply recv_keeps_unbuffered.
  - destruct (chans w !! c) as [ch|] eqn:Hc; [|done].
    destruct Hw as [Hs Hp]. split; [|done]. cbn.
    eapply shape_update_chan; [done..|]. done.
Qed.

Lemma well_formed_init : well_formed init.
Proof. split; [apply shape_init|]. done. Qed.

Lemma well_formed_run (acts : list Action) (w : World) :
  well_formed w -> well_formed (run acts w).
Proof.
  revert w. induction acts as [|a acts IH]; intros w Hw; [done|].
  apply IH. by apply well_formed_step.
Qed.

Lemma reachable_well_formed (w : World) : reachable w -> well_formed w.
Proof. intros [acts ->]. apply well_formed_run, well_formed_init. Qed.


(** ** The handshake *)

Lemma Unmarshal_subscribeReply_literal (b : bool) (d : subscribeReply) :
  Unmarshal dec_subscribeReply
    (json_text "{'success':" +:+ (if b then "true" else "false") +:+ "}") d
  = ({| Success := b |}, None).
Proof. destruct b; reflexivity. Qed.

Ltac handshake_case :=
  first
    [ discriminate
    | by intros [= <-]; eauto 8
    | by intros; eauto 8
    | intros;
      repeat match goal with
             | H : _ /\ _ |- _ => destruct H
             | H : exists _, _ |- _ => destruct H
             end;
      simplify_eq; congruence ].

(** C8.  [subscribe] sends the name of the category between brackets and
    quotes, which for a name without quote, backslash or control character
    is the JSON array holding that one string; the built-in names are such,
    and in every reachable state they are what [payloads] holds below
    [eventmax], the only types [StartEventListener] subscribes to.  It
    unmarshals the reply into [subscribeReply]; its error is a
    [SubscribeError] exactly when the reply was received and unmarshalled
    and [Success] is false, and it is nil exactly when [Success] is
    true. *)
Theorem subscribe_handshake
    (socket : IPCSocket) (names : list string) (eventType : Z) (name : string) :
  index names eventType = Some name ->
  subscribe socket names eventType =
    match Raw socket I3Subscribe (subscribe_request name) with
    | inr msg => Ok (Some (TransportError msg))
    | inl reply =>
        match Unmarshal dec_subscribeReply reply {| Success := false |} with
        | (_, Some e) => Ok (Some e)
        | (r, None) =>
            if Success r then Ok None
            else Ok (Some (SubscribeError "Could not subscribe."))
        end
    end
  /\ (plain_name name = true ->
      scan (subscribe_request name) = Some (JArray [JString name]))
  /\ Forall (fun n => plain_name n = true) payloads_init
  /\ (forall w ev n, reachable w -> 0 <= ev < eventmax ->
        index (payloads w) ev = Some n -> n ∈ payloads_init)
  /\ (forall (b : bool) (d : subscribeReply), Unmarshal dec_subscribeReply
                    (json_text "{'success':" +:+ (if b then "true" else "false") +:+ "}") d
                  = ({| Success := b |}, None))
  /\ (forall m, subscribe socket names eventType = Ok (Some (SubscribeError m)) <->
        m = "Could not subscribe."
        /\ exists reply r,
             Raw socket I3Subscribe (subscribe_request name) = inl reply
             /\ Unmarshal dec_subscribeReply reply {| Success := false |} = (r, None)
             /\ Success r = false)
  /\ (subscribe socket names eventType = Ok None <->
        exists reply r,
          Raw socket I3Subscribe (subscribe_request name) = inl reply
          /\ Unmarshal dec_subscribeReply reply {| Success := false |} = (r, None)
          /\ Success r = true).
Proof.
  intros Hname.
  assert (subscribe socket names eventType =
    match Raw socket I3Subscribe (subscribe_request name) with
    | inr msg => Ok (Some (TransportError msg))
    | inl reply =>
        match Unmarshal dec_subscribeReply reply {| Success := false |} with
        | (_, Some e) => Ok (Some e)
        | (r, None) =>
            if Success r then Ok None
            else Ok (Some (SubscribeError "Could not subscribe."))
        end
    end) as Heq.
  { unfold subscribe. rewrite Hname.
    destruct (Raw socket I3Subscribe (subscribe_request name)) as [reply|msg]; [|done].
    destruct (Unmarshal dec_subscribeReply reply _) as [r [e|]]; [done|].
    by destruct (Success r). }
  split; [exact Heq|]. split; [apply scan_subscribe_request|].
  split; [repeat constructor|].
  split.
  { intros w ev n Hreach Hev [_ Hn]%index_Some.
    destruct (reachable_well_formed w Hreach) as [_ [k Hk]].
    rewrite Hk in Hn. rewrite lookup_app_l in Hn by (cbn; unfold eventmax in Hev; lia).
    by eapply list_elem_of_lookup_2. }
  split; [apply Unmarshal_subscribeReply_literal|].
  rewrite Heq. clear Heq.
  destruct (Raw socket I3Subscribe (subscribe_request name)) as [reply|msg].
  - destruct (Unmarshal dec_subscribeReply reply _) as [r [e|]] eqn:Hu.
    + assert (forall m, e <> SubscribeError m) as Hne.
      { intros m ->.
        apply Unmarshal_subscribeReply_error in Hu as [?|(? & ? & ?)]; discriminate. }
      split; [intros m|]; split; first [handshake_case | by intros [= ->]; destruct (Hne m)].
    + destruct (Success r) eqn:Hs; (split; [intros m|]; split; handshake_case).
  - split; [intros m|]; split; handshake_case.
Qed.

(** ** The history of a run *)

Lemma frames_for_app (i : nat) (acts acts' : list Action) :
  frames_for i (acts ++ acts') = frames_for i acts ++ frames_for i acts'.
Proof. unfold frames_for. apply omap_app. Qed.

Lemma hist_init : hist [] [] [] [] [].
Proof. intros i subs pend l Hi. by rewrite lookup_nil in Hi. Qed.

Lemma hist_more_frames acts acts' S P L C :
  hist acts S P L C -> hist (acts ++ acts') S P L C.
Proof.
  intros H i subs pend l Hs Hp Hl. destruct (H i subs pend l Hs Hp Hl) as (H1 & H2 & H3).
  split; [|done]. rewrite frames_for_app, omap_app. by apply sublist_inserts_r.
Qed.

Lemma hist_arrive acts S P L C (i : nat) (pend : list RecvResult) (r : RecvResult) :
  hist acts S P L C -> P !! i = Some pend ->
  hist (acts ++ [Arrive i r]) S (<[i := pend ++ [r]]> P) L C.
Proof.
  intros H Hi j subs pend' l Hs Hp Hl.
  apply list_lookup_insert_Some in Hp as [[<- [<- _]]|[Hne Hp]].
  - destruct (H i subs pend l Hs Hi Hl) as (H1 & H2 & H3). split; [|done].
    rewrite frames_for_app, !omap_app, app_assoc.
    apply sublist_app; [done|]. cbn. rewrite decide_True by done. done.
  - destruct (H j subs pend' l Hs Hp Hl) as (H1 & H2 & H3). split; [|done].
    rewrite frames_for_app, omap_app. by apply sublist_inserts_r.
Qed.

Lemma hist_new_socket acts S P L C :
  hist acts S P L C -> length P = length S -> length L = length S ->
  hist acts (S ++ [[]]) (P ++ [[]]) (L ++ [{| pc := AtTop; decoded := [] |}]) C.
Proof.
  intros H HP HL i subs pend l Hs Hp Hl.
  apply lookup_app_Some in Hs as [Hs|[Hge Hs]].
  - pose proof (lookup_lt_Some _ _ _ Hs) as Hlt.
    rewrite lookup_app_l in Hp by lia. rewrite lookup_app_l in Hl by lia. by apply H.
  - rewrite lookup_app_r in Hp by lia. rewrite lookup_app_r in Hl by lia.
    rewrite HP in Hp. rewrite HL in Hl.
    apply list_lookup_singleton_Some in Hs as [Hz <-].
    rewrite Hz in Hp, Hl. cbn in Hp, Hl. injection Hp as <-. injection Hl as <-. cbn.
    split; [apply sublist_nil_l|]. split; [intros c ch Hc; by apply elem_of_nil in Hc|].
    discriminate.
Qed.

Lemma hist_new_subscriber acts S P L C (i : nat) (subs : list nat) :
  hist acts S P L C -> S !! i = Some subs ->
  hist acts (<[i := subs ++ [length C]]> S) P L (C ++ [Chan.make 0]).
Proof.
  intros H Hi j sj pend l Hs Hp Hl.
  assert (forall c ch, (C ++ [Chan.make 0]) !! c = Some ch ->
            (C !! c = Some ch /\ c <> length C) \/ Chan.received ch = []) as Hcase.
  { intros c ch [Hc|[_ [_ <-]%list_lookup_singleton_Some]]%lookup_app_Some; [left|by right].
    split; [done|]. apply lookup_lt_Some in Hc. lia. }
  assert (exists sj0, S !! j = Some sj0 /\ forall c, c ∈ sj -> c <> length C -> c ∈ sj0)
    as (sj0 & Hs0 & Hsub).
  { apply list_lookup_insert_Some in Hs as [[<- [<- _]]|[Hne Hs]].
    - exists subs. split; [done|]. intros c [Hc|Hc%list_elem_of_singleton]%elem_of_app; done.
    - exists sj. by split. }
  destruct (H j sj0 pend l Hs0 Hp Hl) as (H1 & H2 & H3).
  split; [done|]. split.
  - intros c ch Hc [[Hch Hne] | ->]%Hcase; [|apply sublist_nil_l]. eauto.
  - intros e rest Hpc. destruct (H3 e rest Hpc) as (evs & Hd & Hr). exists evs.
    split; [done|]. intros c ch Hc [[Hch Hne] | ->]%Hcase; [|apply sublist_nil_l]. eauto.
Qed.

Lemma hist_update_chan acts S P L C (c0 : nat) (ch0 ch' : Chan.t Event) :
  shape S L C -> hist acts S P L C -> C !! c0 = Some ch0 ->
  ((exists i subs, S !! i = Some subs /\ c0 ∈ subs) -> Chan.received ch' = Chan.received ch0) ->
  hist acts S P L (<[c0 := ch']> C).
Proof.
  intros (_ & _ & _ & _ & Hrest) H Hc0 Hsame i subs pend l Hs Hp Hl.
  destruct (H i subs pend l Hs Hp Hl) as (H1 & H2 & H3).
  assert (forall c ch, c ∈ subs -> <[c0 := ch']> C !! c = Some ch ->
            exists ch1, C !! c = Some ch1 /\ Chan.received ch = Chan.received ch1) as Hcase.
  { intros c ch Hc [[<- [<- _]]|[Hne Hch]]%list_lookup_insert_Some; [|by exists ch].
    exists ch0. split; [done|]. apply Hsame. eauto. }
  split; [done|]. split.
  - intros c ch Hc Hch. destruct (Hcase c ch Hc Hch) as (ch1 & Hch1 & ->). eauto.
  - intros e rest Hpc. destruct (H3 e rest Hpc) as (evs & Hd & Hr). exists evs.
    split; [done|]. intros c ch Hc Hch.
    destruct (Hrest i subs l e rest Hs Hl Hpc) as [_ Hsub].
    destruct (Hcase c ch (Hsub c Hc) Hch) as (ch1 & Hch1 & ->). eauto.
Qed.

(** The goroutine moves to a point outside the [range] loop. *)
Lemma hist_set_pc acts S P L C (i : nat) (l : Listener) (p : Pc) :
  hist acts S P L C -> L !! i = Some l -> (forall e rest, p <> InRange e rest) ->
  hist acts S P (<[i := {| pc := p; decoded := decoded l |}]> L) C.
Proof.
  intros H Hi Hp j subs pend l' Hs Hpj Hl.
  apply list_lookup_insert_Some in Hl as [[<- [<- _]]|[Hne Hl]]; [|by apply H].
  destruct (H i subs pend l Hs Hpj Hi) as (H1 & H2 & H3). cbn.
  split; [done|]. split; [done|]. intros e rest Hpc. by destruct (Hp e rest).
Qed.

(** [recv] returns a result that leads to no broadcast. *)
Lemma hist_drop_frame acts S P L C (i : nat) (r : RecvResult) (rest : list RecvResult) :
  hist acts S P L C -> P !! i = Some (r :: rest) -> frame_event r = None ->
  hist acts S (<[i := rest]> P) L C.
Proof.
  intros H Hi Hr j subs pend l Hs Hp Hl.
  apply list_lookup_insert_Some in Hp as [[<- [<- _]]|[Hne Hp]]; [|by apply H].
  destruct (H i subs (r :: rest) l Hs Hi Hl) as (H1 & H2 & H3).
  split; [|done]. cbn in H1. by rewrite Hr in H1.
Qed.

(** [recv] returns an event frame that [addDetails] accepts: the goroutine
    enters the [range] loop over the subscribers. *)
Lemma hist_decode acts S P L C (i : nat) (r : RecvResult) (rest : list RecvResult)
    (subs : list nat) (l : Listener) (e : Event) :
  hist acts S P L C -> P !! i = Some (r :: rest) -> S !! i = Some subs -> L !! i = Some l ->
  frame_event r = Some e ->
  hist acts S (<[i := rest]> P)
       (<[i := {| pc := InRange e subs; decoded := decoded l ++ [e] |}]> L) C.
Proof.
  intros H Hi Hsi Hli Hr j sj pend l' Hs Hp Hl.
  apply list_lookup_insert_Some in Hp as [[<- [<- _]]|[Hne Hp]].
  - rewrite list_lookup_insert_eq in Hl by (by eapply lookup_lt_Some).
    injection Hl as <-. rewrite Hsi in Hs. injection Hs as <-.
    destruct (H i subs (r :: rest) l Hsi Hi Hli) as (H1 & H2 & H3). cbn.
    split; [|split].
    + cbn in H1. rewrite Hr in H1. by rewrite <- app_assoc.
    + intros c ch Hc Hch. apply sublist_inserts_r. eauto.
    + intros e' rest' [= <- <-]. exists (decoded l). split; [done|]. eauto.
  - rewrite list_lookup_insert_ne in Hl by done. by apply H.
Qed.


Lemma try_send_received (x : Event) (ch : Chan.t Event) :
  Chan.received (fst (Chan.try_send x ch)) = Chan.received ch ++ [x]
  \/ Chan.received (fst (Chan.try_send x ch)) = Chan.received ch.
Proof.
  unfold Chan.try_send. destruct (0 <? Chan.recvq ch)%nat; [by left|].
  destruct (length (Chan.buf ch) <? Chan.cap ch)%nat; by right.
Qed.

(** The [range] loop passes over a subscriber without touching it. *)
Lemma hist_next acts S P L C (i : nat) (l : Listener) (e : Event) (c0 : nat) (rest : list nat) :
  hist acts S P L C -> L !! i = Some l -> pc l = InRange e (c0 :: rest) ->
  hist acts S P (<[i := {| pc := InRange e rest; decoded := decoded l |}]> L) C.
Proof.
  intros H Hi Hpc j subs pend l' Hs Hp Hl.
  apply list_lookup_insert_Some in Hl as [[<- [<- _]]|[Hne Hl]]; [|by apply H].
  destruct (H i subs pend l Hs Hp Hi) as (H1 & H2 & H3). cbn.
  split; [done|]. split; [done|]. intros e' rest' [= <- <-].
  destruct (H3 e (c0 :: rest) Hpc) as (evs & Hd & Hr). exists evs. split; [done|].
  intros c ch Hc. apply Hr. by apply elem_of_cons; right.
Qed.

(** The [range] loop tries to send to its next subscriber. *)
Lemma hist_send acts S P L C (i : nat) (l : Listener) (e : Event)
    (c0 : nat) (rest : list nat) (ch0 : Chan.t Event) :
  shape S L C -> hist acts S P L C ->
  L !! i = Some l -> pc l = InRange e (c0 :: rest) -> C !! c0 = Some ch0 ->
  hist acts S P (<[i := {| pc := InRange e rest; decoded := decoded l |}]> L)
       (<[c0 := fst (Chan.try_send e ch0)]> C).
Proof.
  intros (Hlen & _ & _ & Hdisj & Hrest) H Hi Hpc Hc0 j subs pend l' Hs Hp Hl.
  destruct (lookup_lt_is_Some_2 S i) as [si Hsi].
  { rewrite <- Hlen. by eapply lookup_lt_Some. }
  destruct (Hrest i si l e (c0 :: rest) Hsi Hi Hpc) as [Hnd Hsub].
  apply NoDup_cons in Hnd as [Hfresh Hnd].
  assert (c0 ∈ si) as Hc0i by (apply Hsub; by apply elem_of_cons; left).
  apply list_lookup_insert_Some in Hl as [[<- [<- _]]|[Hne Hl]].
  - rewrite Hsi in Hs. injection Hs as <-.
    destruct (H i si pend l Hsi Hp Hi) as (H1 & H2 & H3).
    destruct (H3 e (c0 :: rest) Hpc) as (evs & Hd & Hr). cbn.
    split; [done|]. split.
    + intros c ch Hc [[<- [<- _]]|[Hnc Hch]]%list_lookup_insert_Some; [|by eauto].
      rewrite Hd.
      assert (sublist (Chan.received ch0) evs) as Hsl
        by (eapply Hr; [by apply elem_of_cons; left|done]).
      destruct (try_send_received e ch0) as [-> | ->].
      * by apply sublist_app.
      * by apply sublist_inserts_r.
    + intros e' rest' [= <- <-]. exists evs. split; [done|].
      intros c ch Hc [[<- [<- _]]|[Hnc Hch]]%list_lookup_insert_Some; [done|].
      eapply Hr; [by apply elem_of_cons; right|done].
  - destruct (H j subs pend l' Hs Hp Hl) as (H1 & H2 & H3).
    assert (forall c, c ∈ subs -> c0 <> c) as Hother.
    { intros c Hc <-. by destruct (Hne (Hdisj i j si subs c0 Hsi Hs Hc0i Hc)). }
    split; [done|]. split.
    + intros c ch Hc Hch. rewrite list_lookup_insert_ne in Hch by auto. eauto.
    + intros e' rest' Hpc'. destruct (H3 e' rest' Hpc') as (evs & Hd & Hr).
      exists evs. split; [done|]. intros c ch Hc Hch.
      destruct (Hrest j subs l' e' rest' Hs Hl Hpc') as [_ Hsub'].
      rewrite list_lookup_insert_ne in Hch by auto. eauto.
Qed.


Lemma set_pc_eq (i : nat) (p : Pc) (w : World) (l : Listener) :
  listeners w !! i = Some l ->
  set_pc i p w = set_listeners (<[i := {| pc := p; decoded := decoded l |}]> (listeners w)) w.
Proof. intros H. unfold set_pc. by rewrite H. Qed.

Lemma history_start_sockets acts (n : nat) (ev : Z)
    (dial : nat -> (Z -> string -> string + string) + string) (w : World) :
  well_formed w -> history acts w -> history acts (start_sockets n ev dial w).
Proof.
  revert ev w. induction n as [|n IH]; intros ev w Hw Hh; [done|].
  cbn [start_sockets]. destruct (dial (dialed w)) as [raw|msg]; [|done].
  destruct (subscribe _ _ _) as [[err|]|x]; [done| |done].
  destruct Hw as [Hs Hp]. apply IH.
  - split; [|done]. cbn. rewrite fmap_app. by apply shape_new_socket.
  - unfold history. cbn. rewrite !fmap_app. cbn.
    apply hist_new_socket; [done|by rewrite !length_fmap|by destruct Hs].
Qed.

Lemma frame_event_RecvMsg (msg : Message) :
  frame_event (RecvMsg msg) =
    if Message_IsEvent msg then
      match addDetails (zero_event (Message_Type msg)) (Message_Payload msg) with
      | Ok event => Some event
      | Stop _ => None
      end
    else None.
Proof. reflexivity. Qed.

Lemma history_listen_step acts (i : nat) (w : World) :
  well_formed w -> history acts w -> history acts (listen_step i w).
Proof.
  intros Hw Hh. unfold listen_step.
  destruct (eventSockets w !! i) as [socket|] eqn:Hsock; [|done].
  destruct (listeners w !! i) as [l|] eqn:Hl; [|done].
  assert ((subscribers <$> eventSockets w) !! i = Some (subscribers socket)) as HS
    by (by rewrite list_lookup_fmap, Hsock).
  assert ((pending <$> eventSockets w) !! i = Some (pending socket)) as HP
    by (by rewrite list_lookup_fmap, Hsock).
  destruct (pc l) as [| |event [|subscriber rest]|] eqn:Hpc; try done.
  - destruct (open socket); cbn [negb]; rewrite (set_pc_eq _ _ _ _ Hl);
      by apply hist_set_pc.
  - destruct (pending socket) as [|r rest] eqn:Hpend; [done|].
    set (w1 := set_eventSockets _ w).
    assert (listeners w1 !! i = Some l) as Hl1 by done.
    assert (subscribers <$> eventSockets w1 = subscribers <$> eventSockets w) as HS1.
    { cbn. by eapply fmap_insert_same. }
    assert (pending <$> eventSockets w1 = <[i := rest]> (pending <$> eventSockets w)) as HP1.
    { cbn. by rewrite list_fmap_insert. }
    assert (frame_event r = None -> history acts w1) as Hdrop.
    { intros Hr. unfold history. rewrite HS1, HP1. by eapply hist_drop_frame. }
    destruct r as [what|msg].
    { rewrite (set_pc_eq _ _ _ _ Hl1). apply hist_set_pc; [by apply Hdrop|done..]. }
    pose proof (frame_event_RecvMsg msg) as Hfe.
    destruct (Message_IsEvent msg); cbn [negb].
    2:{ rewrite (set_pc_eq _ _ _ _ Hl1). apply hist_set_pc; [by apply Hdrop|done..]. }
    destruct (addDetails _ _) as [event|x]; [|by apply Hdrop].
    unfold history. cbn [listeners chans eventSockets set_listeners]. rewrite HS1, HP1.
    by eapply hist_decode.
  - rewrite (set_pc_eq _ _ _ _ Hl). by apply hist_set_pc.
  - destruct (chans w !! subscriber) as [c|] eqn:Hc.
    + rewrite (set_pc_eq _ _ _ l) by done.
      destruct Hw as [Hs _]. by eapply hist_send.
    + rewrite (set_pc_eq _ _ _ l) by done. by eapply hist_next.
Qed.

Lemma history_step acts (a : Action) (w : World) :
  well_formed w -> history acts w -> history (acts ++ [a]) (step a w).
Proof.
  intros Hw Hh. unfold step.
  destruct (exited w); [by apply hist_more_frames|].
  destruct a as [dial|name|ev|i|i r|i|c|c].
  - apply hist_more_frames. unfold StartEventListener. destruct (negb _); [done|].
    by apply history_start_sockets.
  - by apply hist_more_frames.
  - apply hist_more_frames. unfold Subscribe.
    destruct (_ || _); [done|].
    destruct (index _ ev) as [socket|] eqn:Hi; [|done].
    apply index_Some in Hi as [_ Hi]. cbn in Hi. unfold history. cbn.
    rewrite list_fmap_insert.
    rewrite (fmap_insert_same pending _ _ socket) by done. cbn.
    apply hist_new_subscriber; [done|]. by rewrite list_lookup_fmap, Hi.
  - apply hist_more_frames. by apply history_listen_step.
  - destruct (eventSockets w !! i) as [socket|] eqn:Hi; [|by apply hist_more_frames].
    unfold history. cbn. rewrite (fmap_insert_same subscribers _ _ socket) by done.
    rewrite list_fmap_insert. cbn. apply hist_arrive; [done|].
    by rewrite list_lookup_fmap, Hi.
  - apply hist_more_frames.
    destruct (eventSockets w !! i) as [socket|] eqn:Hi; [|done].
    unfold history. cbn. rewrite (fmap_insert_same subscribers _ _ socket) by done.
    by rewrite (fmap_insert_same pending _ _ socket) by done.
  - apply hist_more_frames.
    destruct (chans w !! c) as [ch|] eqn:Hc; [|done].
    destruct Hw as [Hs _]. unfold history. cbn. eapply hist_update_chan; [done..|].
    intros (j & subs & Hj & Hin). destruct Hs as (_ & Hch & _).
    destruct (Hch j subs c Hj Hin) as (ch' & Hc' & _ & Hbuf).
    rewrite Hc in Hc'. injection Hc' as <-. unfold Chan.recv. by rewrite Hbuf.
  - apply hist_more_frames.
    destruct (chans w !! c) as [ch|] eqn:Hc; [|done].
    destruct Hw as [Hs _]. unfold history. cbn. by eapply hist_update_chan.
Qed.

Lemma history_run (acts : list Action) : history acts (run acts init).
Proof.
  induction acts as [|a acts IH] using rev_ind; [apply hist_init|].
  rewrite run_snoc. apply history_step; [|done].
  apply well_formed_run, well_formed_init.
Qed.

(** In every run, whatever a subscriber of a socket has received is a
    subsequence of the events of the frames fed to that socket. *)
Lemma received_sublist_frames (acts : list Action) (i : nat) (socket : IPCSocket)
    (c : nat) (ch : Chan.t Event) :
  eventSockets (run acts init) !! i = Some socket ->
  c ∈ subscribers socket ->
  chans (run acts init) !! c = Some ch ->
  sublist (Chan.received ch) (omap frame_event (frames_for i acts)).
Proof.
  intros Hi Hc Hch.
  pose proof (well_formed_run acts init well_formed_init) as [(Hlen & _) _].
  destruct (lookup_lt_is_Some_2 (listeners (run acts init)) i) as [l Hl].
  { rewrite Hlen, length_fmap. by eapply lookup_lt_Some. }
  destruct (history_run acts i (subscribers socket) (pending socket) l) as (H1 & H2 & _);
    [by rewrite list_lookup_fmap, Hi..|done|].
  etrans; [by eapply H2|]. etrans; [|exact H1]. by apply sublist_inserts_r.
Qed.


(** ** The [range] loop as a whole *)

Lemma broadcast_cons (event : Event) (c0 : nat) (subs : list nat) (cs : list (Chan.t Event)) :
  broadcast event (c0 :: subs) cs =
    broadcast event subs
      match cs !! c0 with
      | Some c => <[c0 := fst (Chan.try_send event c)]> cs
      | None => cs
      end.
Proof. reflexivity. Qed.

(** Under [broadcast] each subscriber sees one [try_send], on its own
    state, and every other channel is left alone. *)
Lemma broadcast_lookup (event : Event) (subs : list nat) (cs : list (Chan.t Event)) (c : nat) :
  NoDup subs ->
  broadcast event subs cs !! c =
    if decide (c ∈ subs) then (fun ch => fst (Chan.try_send event ch)) <$> cs !! c
    else cs !! c.
Proof.
  revert cs. induction subs as [|c0 subs IH]; intros cs Hnd.
  - by rewrite decide_False by apply not_elem_of_nil.
  - apply NoDup_cons in Hnd as [Hfresh Hnd]. rewrite broadcast_cons, IH by done.
    destruct (decide (c = c0)) as [->|Hne].
    + rewrite decide_False by done. rewrite decide_True by (by apply elem_of_cons; left).
      destruct (cs !! c0) as [ch|] eqn:Hc; [|by rewrite Hc].
      by rewrite list_lookup_insert_eq by (by eapply lookup_lt_Some).
    + assert (match cs !! c0 with
              | Some ch => <[c0 := fst (Chan.try_send event ch)]> cs
              | None => cs
              end !! c = cs !! c) as ->.
      { destruct (cs !! c0); [|done]. by rewrite list_lookup_insert_ne. }
      destruct (decide (c ∈ subs)) as [Hin|Hout].
      * by rewrite decide_True by (by apply elem_of_cons; right).
      * rewrite decide_False; [done|]. by intros [?|?]%elem_of_cons.
Qed.

Lemma listen_step_range (i : nat) (w : World) (socket : IPCSocket) (l : Listener)
    (event : Event) (subscriber : nat) (rest : list nat) :
  eventSockets w !! i = Some socket -> listeners w !! i = Some l ->
  pc l = InRange event (subscriber :: rest) ->
  listen_step i w =
    set_listeners (<[i := {| pc := InRange event rest; decoded := decoded l |}]> (listeners w))
      (set_chans match chans w !! subscriber with
                 | Some c => <[subscriber := fst (Chan.try_send event c)]> (chans w)
                 | None => chans w
                 end w).
Proof.
  intros Hs Hl Hpc. unfold listen_step. rewrite Hs, Hl, Hpc.
  destruct (chans w !! subscriber) as [c|]; rewrite (set_pc_eq _ _ _ l) by done.
  - done.
  - by destruct w.
Qed.

(** [length subs] steps of the goroutine, with nothing in between, run the
    loop to its end. *)
Lemma range_loop_run (i : nat) (event : Event) (subs : list nat) (w : World) (l : Listener) :
  exited w = None -> is_Some (eventSockets w !! i) -> listeners w !! i = Some l ->
  pc l = InRange event subs ->
  let w' := run (replicate (length subs) (Listen i)) w in
  chans w' = broadcast event subs (chans w)
  /\ listeners w' = <[i := {| pc := InRange event []; decoded := decoded l |}]> (listeners w)
  /\ eventSockets w' = eventSockets w
  /\ exited w' = None.
Proof.
  revert w l. induction subs as [|c0 subs IH]; intros w l Hrun [socket Hs] Hl Hpc; cbn zeta.
  - cbn. repeat split; try done. symmetry. apply list_insert_id.
    rewrite Hl. f_equal. destruct l. cbn in *. by subst.
  - cbn [length replicate]. rewrite run_cons.
    assert (step (Listen i) w = listen_step i w) as -> by (unfold step; by rewrite Hrun).
    rewrite (listen_step_range i w socket l event c0 subs Hs Hl Hpc).
    set (w1 := set_listeners _ _).
    destruct (IH w1 {| pc := InRange event subs; decoded := decoded l |})
      as (Hc & Hls & Hes & Hex); try done.
    { unfold w1. cbn [listeners set_listeners]. apply list_lookup_insert_eq.
      by eapply lookup_lt_Some. }
    rewrite Hc, Hls, Hes, Hex, broadcast_cons. unfold w1.
    cbn [chans listeners eventSockets exited set_listeners set_chans].
    by rewrite list_insert_insert_eq.
Qed.


(** ** Decoding *)

Lemma find_field_Change {F : Type} (k : string) (f g : F) :
  find_field k [("Change", f)] = Some g -> g = f /\ fold_eqb "Change" k = true.
Proof.
  unfold find_field. cbn [List.find fst snd].
  destruct (String.eqb "Change" k) eqn:Heq.
  - apply String.eqb_eq in Heq as <-. by intros [= <-].
  - destruct (fold_eqb "Change" k); cbn; [by intros [= <-]|done].
Qed.

(** Into [BaseEvent], an object is accepted as soon as each member that
    selects [Change] holds a string or null: every other member is
    skipped, whatever it holds. *)
Lemma dec_BaseEvent_members (ms : list (string * json)) (d : BaseEvent) :
  (forall k v, (k, v) ∈ ms -> fold_eqb "Change" k = true ->
               (exists s, v = JString s) \/ v = JNull) ->
  exists d', dec_BaseEvent (JObject ms) d = (d', None).
Proof.
  unfold dec_BaseEvent, dec_struct.
  revert d. induction ms as [|[k v] ms IH]; intros d Hms; cbn [dec_members]; [by eexists|].
  destruct (find_field k _) as [dec|] eqn:Hf.
  - apply find_field_Change in Hf as [-> Hk].
    destruct (Hms k v) as [[s ->]| ->]; [by apply elem_of_cons; left|done| |].
    + cbn. destruct (IH {| BaseEvent_Change := s |}) as [d' ->]; [|by eexists].
      intros k' v' Hin. apply Hms. by apply elem_of_cons; right.
    + cbn. destruct (IH {| BaseEvent_Change := BaseEvent_Change d |}) as [d' ->]; [|by eexists].
      intros k' v' Hin. apply Hms. by apply elem_of_cons; right.
  - apply IH. intros k' v' Hin. apply Hms. by apply elem_of_cons; right.
Qed.

(** C3 (as amended).  For an event type other than the four with a case
    of their own, [addDetails] unmarshals the payload into [BaseEvent];
    when [json.Unmarshal] returns no error the event carries that
    [BaseEvent], whose only field is [Change], and this is a success; when
    it returns an error the process exits.  A payload that is an object is
    accepted whatever its other members are, provided the members that
    select [Change] hold a string or null. *)
Theorem addDetails_generic_fallback (e : Event) (raw : string) :
  Event_Type e <> I3WorkspaceEvent -> Event_Type e <> I3ModeEvent ->
  Event_Type e <> I3WindowEvent -> Event_Type e <> I3BindingEvent ->
  addDetails e raw =
    match Unmarshal dec_BaseEvent raw BaseEvent_zero with
    | (d, None) =>
        Ok {| Event_Type := Event_Type e;
              Event_Details := OfBaseEvent d;
              Event_Change := BaseEvent_Change d |}
    | (_, Some err) => Stop (FatalDecode err)
    end
  /\ (forall ms, scan raw = Some (JObject ms) ->
        (forall k v, (k, v) ∈ ms -> fold_eqb "Change" k = true ->
                     (exists s, v = JString s) \/ v = JNull) ->
        exists d, addDetails e raw =
                    Ok {| Event_Type := Event_Type e;
                          Event_Details := OfBaseEvent d;
                          Event_Change := BaseEvent_Change d |}).
Proof.
  intros H0 H2 H3 H5.
  assert (addDetails e raw =
    match Unmarshal dec_BaseEvent raw BaseEvent_zero with
    | (d, None) =>
        Ok {| Event_Type := Event_Type e;
              Event_Details := OfBaseEvent d;
              Event_Change := BaseEvent_Change d |}
    | (_, Some err) => Stop (FatalDecode err)
    end) as Heq.
  { unfold addDetails.
    destruct (Z.eqb_spec (Event_Type e) I3WorkspaceEvent); [done|].
    destruct (Z.eqb_spec (Event_Type e) I3ModeEvent); [done|].
    destruct (Z.eqb_spec (Event_Type e) I3WindowEvent); [done|].
    destruct (Z.eqb_spec (Event_Type e) I3BindingEvent); [done|].
    by destruct (Unmarshal dec_BaseEvent raw BaseEvent_zero) as [d [err|]]. }
  split; [exact Heq|]. intros ms Hscan Hms. rewrite Heq. unfold Unmarshal. rewrite Hscan.
  destruct (dec_BaseEvent_members ms BaseEvent_zero Hms) as [d ->]. by exists d.
Qed.

Lemma listen_step_recv (i : nat) (w : World) (socket : IPCSocket) (l : Listener)
    (r : RecvResult) (rest : list RecvResult) :
  eventSockets w !! i = Some socket -> listeners w !! i = Some l -> pc l = InRecv ->
  pending socket = r :: rest ->
  listen_step i w =
    let w1 := set_eventSockets (<[i := set_pending rest socket]> (eventSockets w)) w in
    match r with
    | RecvErr _ => set_pc i AtTop w1
    | RecvMsg msg =>
        if negb (Message_IsEvent msg) then set_pc i AtTop w1
        else
          match addDetails (zero_event (Message_Type msg)) (Message_Payload msg) with
          | Stop x => set_exited x w1
          | Ok event =>
              set_listeners
                (<[i := {| pc := InRange event (subscribers socket);
                           decoded := decoded l ++ [event] |}]> (listeners w1)) w1
          end
    end.
Proof. intros Hs Hl Hpc Hp. unfold listen_step. by rewrite Hs, Hl, Hpc, Hp. Qed.

(** C4.  When [recv] returns an event frame whose payload
    [json.Unmarshal] rejects for the frame's type, the goroutine's next
    step ends the process with that error: no channel is written, the
    frame leads to no event, and no further step of any goroutine or
    caller changes anything. *)
Theorem decode_failure_is_fatal (i : nat) (w : World) (socket : IPCSocket) (l : Listener)
    (msg : Message) (rest : list RecvResult) (err : error) :
  exited w = None ->
  eventSockets w !! i = Some socket -> listeners w !! i = Some l -> pc l = InRecv ->
  pending socket = RecvMsg msg :: rest ->
  Message_IsEvent msg = true ->
  decode_error (Message_Type msg) (Message_Payload msg) = Some err ->
  let w' := step (Listen i) w in
  exited w' = Some (FatalDecode err)
  /\ chans w' = chans w
  /\ listeners w' = listeners w
  /\ frame_event (RecvMsg msg) = None
  /\ forall acts, run acts w' = w'.
Proof.
  intros Hrun Hs Hl Hpc Hp Hev Herr w'. subst w'.
  pose proof (addDetails_decode_error (zero_event (Message_Type msg)) _ _ Herr) as Hdec.
  assert (step (Listen i) w = listen_step i w) as -> by (unfold step; by rewrite Hrun).
  rewrite (listen_step_recv i w socket l _ rest Hs Hl Hpc Hp). cbn zeta.
  rewrite Hev, Hdec. cbn [negb].
  do 3 (split; [done|]). split.
  { rewrite frame_event_RecvMsg, Hev, Hdec. done. }
  intros acts. by eapply run_exited.
Qed.

Lemma dropped_no_event (r : RecvResult) : dropped r -> frame_event r = None.
Proof. destruct r as [what|msg]; [done|]. cbn. by intros ->. Qed.


(** Whatever a subscriber has received was decoded from an event frame
    that arrived without error on its socket. *)
Lemma received_from_event_frame (acts : list Action) (i : nat) (socket : IPCSocket)
    (c : nat) (ch : Chan.t Event) (e : Event) :
  eventSockets (run acts init) !! i = Some socket ->
  c ∈ subscribers socket ->
  chans (run acts init) !! c = Some ch ->
  e ∈ Chan.received ch ->
  exists msg, RecvMsg msg ∈ frames_for i acts
              /\ Message_IsEvent msg = true
              /\ addDetails (zero_event (Message_Type msg)) (Message_Payload msg) = Ok e.
Proof.
  intros Hi Hc Hch He.
  pose proof (received_sublist_frames acts i socket c ch Hi Hc Hch) as Hsub.
  apply (sublist_subseteq _ _ Hsub) in He.
  apply list_elem_of_omap in He as (r & Hr & Hfe).
  destruct r as [what|msg]; [done|]. exists msg. split; [done|].
  rewrite frame_event_RecvMsg in Hfe.
  destruct (Message_IsEvent msg); [|done]. split; [done|].
  destruct (addDetails _ _); congruence.
Qed.

(** C7.  When [recv] returns an error or a message that is not an event,
    the goroutine's next step takes it to the head of the loop and changes
    nothing else: no channel is written and nothing is added to the decoded
    events, so the events that follow are handled as if the frame had
    never come.  In every run a subscriber receives, in order, only events
    decoded from event frames that arrived without error. *)
Theorem dropped_frame_is_not_delivered (i : nat) (w : World) (socket : IPCSocket)
    (l : Listener) (r : RecvResult) (rest : list RecvResult) :
  exited w = None ->
  eventSockets w !! i = Some socket -> listeners w !! i = Some l -> pc l = InRecv ->
  pending socket = r :: rest ->
  dropped r ->
  let w' := step (Listen i) w in
  listeners w' = <[i := {| pc := AtTop; decoded := decoded l |}]> (listeners w)
  /\ eventSockets w' = <[i := set_pending rest socket]> (eventSockets w)
  /\ chans w' = chans w
  /\ exited w' = None
  /\ frame_event r = None
  /\ (forall before after,
        omap frame_event (before ++ r :: after) = omap frame_event (before ++ after))
  /\ (forall acts j sj c ch,
        eventSockets (run acts init) !! j = Some sj -> c ∈ subscribers sj ->
        chans (run acts init) !! c = Some ch ->
        sublist (Chan.received ch) (omap frame_event (frames_for j acts))
        /\ forall e, e ∈ Chan.received ch ->
             exists msg, RecvMsg msg ∈ frames_for j acts
                         /\ Message_IsEvent msg = true
                         /\ addDetails (zero_event (Message_Type msg)) (Message_Payload msg)
                            = Ok e).
Proof.
  intros Hrun Hs Hl Hpc Hp Hdrop w'. subst w'.
  assert (step (Listen i) w = listen_step i w) as -> by (unfold step; by rewrite Hrun).
  rewrite (listen_step_recv i w socket l _ rest Hs Hl Hpc Hp). cbn zeta.
  set (w1 := set_eventSockets _ w).
  assert (match r with
          | RecvErr _ => set_pc i AtTop w1
          | RecvMsg msg =>
              if negb (Message_IsEvent msg) then set_pc i AtTop w1
              else
                match addDetails (zero_event (Message_Type msg)) (Message_Payload msg) with
                | Stop x => set_exited x w1
                | Ok event =>
                    set_listeners
                      (<[i := {| pc := InRange event (subscribers socket);
                                 decoded := decoded l ++ [event] |}]> (listeners w1)) w1
                end
          end = set_pc i AtTop w1) as ->.
  { destruct r as [what|msg]; [done|]. cbn in Hdrop. by rewrite Hdrop. }
  rewrite (set_pc_eq i AtTop w1 l) by done.
  pose proof (dropped_no_event r Hdrop) as Hnone.
  do 5 (split; [done|]). split.
  - intros before after. rewrite !omap_app. cbn. by rewrite Hnone.
  - intros acts j sj c ch Hj Hc Hch. split.
    + by eapply received_sublist_frames.
    + intros e He. by eapply received_from_event_frame.
Qed.

Lemma try_send_unbuffered (event : Event) (ch : Chan.t Event) :
  Chan.cap ch = 0%nat ->
  Chan.try_send event ch =
    if (0 <? Chan.recvq ch)%nat
    then (Chan.mk 0 (Chan.buf ch) (Chan.recvq ch - 1) (Chan.received ch ++ [event]), true)
    else (ch, false).
Proof.
  intros Hcap. unfold Chan.try_send. rewrite Hcap.
  destruct (0 <? Chan.recvq ch)%nat; [done|].
  by destruct (Nat.ltb_spec (length (Chan.buf ch)) 0); [lia|].
Qed.

(** C1.  Once [addDetails] has returned the event, the goroutine ranges
    over the subscribers its socket has at that moment.  Each step of the
    range is one [try_send] of that event on the next subscriber; whether
    it goes through or not the goroutine moves on, and no other channel
    changes.  Run to its end, the loop has tried every subscriber once,
    each on its own state.  A send that does not go through leaves the
    channel as it was; one that does hands over exactly that event.  In
    every run, what a subscriber has received is a subsequence of the
    events of the frames fed to its socket. *)
Theorem broadcast_is_nonblocking_and_ordered :
  (forall i w socket l msg rest event,
     exited w = None ->
     eventSockets w !! i = Some socket -> listeners w !! i = Some l -> pc l = InRecv ->
     pending socket = RecvMsg msg :: rest -> Message_IsEvent msg = true ->
     addDetails (zero_event (Message_Type msg)) (Message_Payload msg) = Ok event ->
     listeners (step (Listen i) w) !! i
       = Some {| pc := InRange event (subscribers socket); decoded := decoded l ++ [event] |}
     /\ chans (step (Listen i) w) = chans w
     /\ exited (step (Listen i) w) = None)
  /\ (forall i w socket l event subscriber rest,
        exited w = None ->
        eventSockets w !! i = Some socket -> listeners w !! i = Some l ->
        pc l = InRange event (subscriber :: rest) ->
        listeners (step (Listen i) w) !! i
          = Some {| pc := InRange event rest; decoded := decoded l |}
        /\ exited (step (Listen i) w) = None
        /\ chans (step (Listen i) w) !! subscriber
           = (fun ch => fst (Chan.try_send event ch)) <$> chans w !! subscriber
        /\ forall c, c <> subscriber -> chans (step (Listen i) w) !! c = chans w !! c)
  /\ (forall i w socket l event subs,
        reachable w -> exited w = None ->
        eventSockets w !! i = Some socket -> listeners w !! i = Some l ->
        pc l = InRange event subs ->
        let w' := run (replicate (length subs) (Listen i)) w in
        listeners w' !! i = Some {| pc := InRange event []; decoded := decoded l |}
        /\ exited w' = None
        /\ forall c, chans w' !! c =
             if decide (c ∈ subs)
             then (fun ch => fst (Chan.try_send event ch)) <$> chans w !! c
             else chans w !! c)
  /\ (forall (event : Event) ch,
        (snd (Chan.try_send event ch) = false -> fst (Chan.try_send event ch) = ch)
        /\ (snd (Chan.try_send event ch) = true ->
            Chan.cap ch = 0%nat ->
            Chan.received (fst (Chan.try_send event ch)) = Chan.received ch ++ [event]))
  /\ (forall acts i socket c ch,
        eventSockets (run acts init) !! i = Some socket -> c ∈ subscribers socket ->
        chans (run acts init) !! c = Some ch ->
        sublist (Chan.received ch) (omap frame_event (frames_for i acts))).
Proof.
  split; [|split; [|split; [|split]]].
  - intros i w socket l msg rest event Hrun Hs Hl Hpc Hp Hev Hdec.
    assert (step (Listen i) w = listen_step i w) as -> by (unfold step; by rewrite Hrun).
    rewrite (listen_step_recv i w socket l _ rest Hs Hl Hpc Hp). cbn zeta.
    rewrite Hev, Hdec. cbn [negb]. split; [|done].
    cbn [listeners set_listeners set_eventSockets].
    apply list_lookup_insert_eq. by eapply lookup_lt_Some.
  - intros i w socket l event subscriber rest Hrun Hs Hl Hpc.
    assert (step (Listen i) w = listen_step i w) as -> by (unfold step; by rewrite Hrun).
    rewrite (listen_step_range i w socket l event subscriber rest Hs Hl Hpc).
    cbn [listeners chans exited set_listeners set_chans].
    split; [apply list_lookup_insert_eq; by eapply lookup_lt_Some|].
    split; [done|]. split.
    + destruct (chans w !! subscriber) as [ch|] eqn:Hc; [|by rewrite Hc].
      rewrite list_lookup_insert_eq by (by eapply lookup_lt_Some). done.
    + intros c Hne. destruct (chans w !! subscriber); [|done].
      by rewrite list_lookup_insert_ne.
  - intros i w socket l event subs Hreach Hrun Hs Hl Hpc.
    destruct (range_loop_run i event subs w l Hrun (mk_is_Some _ _ Hs) Hl Hpc)
      as (Hc & Hls & _ & Hex).
    cbn zeta. rewrite Hc, Hls, Hex.
    split; [apply list_lookup_insert_eq; by eapply lookup_lt_Some|]. split; [done|].
    intros c. apply broadcast_lookup.
    destruct (reachable_well_formed w Hreach) as [(_ & _ & _ & _ & Hrest) _].
    eapply (Hrest i (subscribers socket) l event subs); [|done..].
    by rewrite list_lookup_fmap, Hs.
  - intros event ch. split.
    + unfold Chan.try_send. destruct (0 <? Chan.recvq ch)%nat; [done|].
      by destruct (length (Chan.buf ch) <? Chan.cap ch)%nat.
    + intros Hok Hcap. rewrite (try_send_unbuffered event ch Hcap) in *.
      by destruct (0 <? Chan.recvq ch)%nat.
  - apply received_sublist_frames.
Qed.


(** ** Subscribe *)

Lemma Subscribe_eventmax_or_more (ev : Z) (w : World) :
  ev < 0 \/ eventmax <= ev ->
  Subscribe ev w = Ok (None, Some (SubscribeError "No such event type."), w).
Proof.
  intros H. unfold Subscribe.
  destruct (Z.geb_spec ev eventmax); [done|].
  destruct (Z.ltb_spec ev 0); [done|]. lia.
Qed.

Lemma start_sockets_length (n : nat) (ev : Z)
    (dial : nat -> (Z -> string -> string + string) + string) (w : World) :
  exited (start_sockets n ev dial w) = None ->
  length (eventSockets (start_sockets n ev dial w)) = (length (eventSockets w) + n)%nat.
Proof.
  revert ev w. induction n as [|n IH]; intros ev w; [cbn; lia|].
  cbn [start_sockets]. destruct (dial (dialed w)) as [raw|msg]; [|done].
  destruct (subscribe _ _ _) as [[err|]|x]; [done| |done].
  intros Hrun. rewrite (IH _ _ Hrun). cbn. rewrite length_app. cbn. lia.
Qed.

(** C6.  In every state the process can reach, [Subscribe] on a negative
    event type, or on one at or above the length of [payloads], returns the
    nil channel with the error "No such event type." and leaves the state,
    so every subscriber slice, as it was. *)
Theorem Subscribe_rejects_out_of_range (w : World) (ev : Z) :
  reachable w ->
  ev < 0 \/ Z.of_nat (length (payloads w)) <= ev ->
  Subscribe ev w = Ok (None, Some (SubscribeError "No such event type."), w).
Proof.
  intros Hreach Hev. apply Subscribe_eventmax_or_more.
  destruct (reachable_well_formed w Hreach) as [_ Hp].
  apply prefix_length in Hp. cbn in Hp. unfold eventmax. lia.
Qed.

(** C2 (as amended).  [Subscribe] checks the event type against the
    constant [eventmax], not against the length of [payloads].  For a type
    from 0 up to [eventmax], once [eventSockets] holds a socket at that
    index, as it does when [StartEventListener] has returned, it returns a new channel made with [make(chan Event)] and a nil
    error, and has appended the channel to the subscribers of that socket;
    nothing else changes.  For every type from [eventmax] on it returns the
    error, whatever [payloads] holds. *)
Theorem Subscribe_accepts_below_eventmax (w : World) (ev : Z) (socket : IPCSocket) :
  0 <= ev < eventmax ->
  eventSockets w !! Z.to_nat ev = Some socket ->
  Subscribe ev w =
    Ok (Some (length (chans w)), None,
        set_eventSockets
          (<[Z.to_nat ev := set_subscribers (subscribers socket ++ [length (chans w)]) socket]>
             (eventSockets w))
          (set_chans (chans w ++ [Chan.make 0]) w))
  /\ (forall ev' w', eventmax <= ev' ->
        Subscribe ev' w' = Ok (None, Some (SubscribeError "No such event type."), w'))
  /\ (forall dial w0,
        exited (StartEventListener dial w0) = None ->
        length (eventSockets (StartEventListener dial w0))
        = (length (eventSockets w0) + Z.to_nat eventmax)%nat).
Proof.
  intros Hev Hs. split; [|split].
  - unfold Subscribe.
    destruct (Z.geb_spec ev eventmax); [lia|].
    destruct (Z.ltb_spec ev 0); [lia|]. cbn [orb].
    assert (index (eventSockets (set_chans (chans w ++ [Chan.make 0]) w)) ev = Some socket)
      as -> by (apply index_Some; by split; [lia|]).
    done.
  - intros ev' w' Hge. apply Subscribe_eventmax_or_more. by right.
  - intros dial w0. unfold StartEventListener. destruct (negb _); [done|].
    apply start_sockets_length.
Qed.

(** C10.  The channel [Subscribe] returns is the one it has just made
    with [make(chan Event)]: unbuffered.  In every reachable state every
    subscriber of every socket is such a channel, with nothing buffered.
    On such a channel [try_send] goes through exactly when a receiver is
    parked on it, and then hands it the event; otherwise the channel is
    unchanged.  So a step of the [range] loop delivers to its subscriber
    when a receiver is waiting at that moment and drops the event
    otherwise. *)
Theorem subscriber_queue_is_unbuffered :
  (forall ev w c err w',
     Subscribe ev w = Ok (Some c, err, w') ->
     chans w' !! c = Some (Chan.make 0) /\ chans w !! c = None /\ err = None)
  /\ Chan.cap (Chan.make 0 : Chan.t Event) = 0%nat
  /\ (forall w i socket c,
        reachable w -> eventSockets w !! i = Some socket -> c ∈ subscribers socket ->
        exists ch, chans w !! c = Some ch /\ Chan.cap ch = 0%nat /\ Chan.buf ch = [])
  /\ (forall (event : Event) ch,
        Chan.cap ch = 0%nat ->
        (snd (Chan.try_send event ch) = true <-> (0 < Chan.recvq ch)%nat)
        /\ ((0 < Chan.recvq ch)%nat ->
            fst (Chan.try_send event ch)
            = Chan.mk 0 (Chan.buf ch) (Chan.recvq ch - 1) (Chan.received ch ++ [event]))
        /\ (Chan.recvq ch = 0%nat -> Chan.try_send event ch = (ch, false)))
  /\ (forall w i socket l event subscriber rest,
        reachable w -> exited w = None ->
        eventSockets w !! i = Some socket -> listeners w !! i = Some l ->
        pc l = InRange event (subscriber :: rest) ->
        exists ch,
          chans w !! subscriber = Some ch /\ Chan.cap ch = 0%nat /\ Chan.buf ch = []
          /\ chans (step (Listen i) w) !! subscriber
             = Some (if (0 <? Chan.recvq ch)%nat
                     then Chan.mk 0 [] (Chan.recvq ch - 1) (Chan.received ch ++ [event])
                     else ch)).
Proof.
  split; [|split; [done|split; [|split]]].
  - intros ev w c err w'. unfold Subscribe.
    destruct (_ || _); [done|].
    destruct (index _ ev) as [socket|]; [|done].
    intros [= <- <- <-]. cbn. split; [|split; [|done]].
    + rewrite lookup_app_r by lia. by rewrite Nat.sub_diag.
    + apply lookup_ge_None. lia.
  - intros w i socket c Hreach Hs Hc.
    destruct (reachable_well_formed w Hreach) as [(_ & Hch & _) _].
    eapply (Hch i); [|done]. by rewrite list_lookup_fmap, Hs.
  - intros event ch Hcap. rewrite (try_send_unbuffered event ch Hcap).
    destruct (Nat.ltb_spec 0 (Chan.recvq ch)); cbn; (split; [split|split]);
      try done; try lia.
  - intros w i socket l event subscriber rest Hreach Hrun Hs Hl Hpc.
    destruct (reachable_well_formed w Hreach) as [(_ & Hch & _ & _ & Hrest) _].
    destruct (Hrest i (subscribers socket) l event (subscriber :: rest)) as [_ Hsub];
      [by rewrite list_lookup_fmap, Hs|done..|].
    destruct (Hch i (subscribers socket) subscriber) as (ch & Hc & Hcap & Hbuf);
      [by rewrite list_lookup_fmap, Hs|apply Hsub; by apply elem_of_cons; left|].
    exists ch. do 3 (split; [done|]).
    assert (step (Listen i) w = listen_step i w) as -> by (unfold step; by rewrite Hrun).
    rewrite (listen_step_range i w socket l event subscriber rest Hs Hl Hpc).
    cbn [chans set_listeners set_chans]. rewrite Hc.
    rewrite list_lookup_insert_eq by (by eapply lookup_lt_Some).
    rewrite (try_send_unbuffered event ch Hcap), Hbuf.
    by destruct (0 <? Chan.recvq ch)%nat.
Qed.


(** ** Further facts: what [addDetails] returns *)

(** X1.  When [addDetails] returns, the event keeps its type, [Details]
    holds the struct that goes with that type, the deprecated [Change] of
    the event is the [Change] of that struct, and nothing of what the
    event held in [Details] and [Change] before the call is left. *)
Theorem addDetails_fills_details_and_change (e e' : Event) (raw : string) :
  addDetails e raw = Ok e' ->
  Event_Type e' = Event_Type e
  /\ Details_for (Event_Type e) (Event_Details e')
  /\ Event_Change e' = Details_Change (Event_Details e')
  /\ addDetails (zero_event (Event_Type e)) raw = Ok e'.
Proof.
  unfold addDetails. cbn [zero_event Event_Type].
  destruct (Z.eqb_spec (Event_Type e) I3WorkspaceEvent) as [H0|H0].
  { destruct (Unmarshal dec_WorkspaceEvent raw WorkspaceEvent_zero) as [d [err|]];
      [done|]. by intros [= <-]. }
  destruct (Z.eqb_spec (Event_Type e) I3ModeEvent) as [H2|H2].
  { destruct (Unmarshal dec_ModeEvent raw ModeEvent_zero) as [d [err|]];
      [done|]. by intros [= <-]. }
  destruct (Z.eqb_spec (Event_Type e) I3WindowEvent) as [H3|H3].
  { destruct (Unmarshal dec_WindowEvent raw WindowEvent_zero) as [d [err|]];
      [done|]. by intros [= <-]. }
  destruct (Z.eqb_spec (Event_Type e) I3BindingEvent) as [H5|H5].
  { destruct (Unmarshal dec_BindingEvent raw BindingEvent_zero) as [d [err|]];
      [done|]. by intros [= <-]. }
  destruct (Unmarshal dec_BaseEvent raw BaseEvent_zero) as [d [err|]]; [done|].
  by intros [= <-].
Qed.

(** X2.  A payload that is not a JSON text, the empty payload included,
    makes [addDetails] exit the process with a syntax error, whatever the
    event type, and so does the step of [listen] that receives it. *)
Theorem addDetails_rejects_non_json (e : Event) (raw : string) :
  scan raw = None ->
  addDetails e raw = Stop (FatalDecode SyntaxError)
  /\ forall i w socket l rest,
       exited w = None ->
       eventSockets w !! i = Some socket -> listeners w !! i = Some l -> pc l = InRecv ->
       pending socket
       = RecvMsg {| Message_Type := Event_Type e; Message_IsEvent := true;
                    Message_Payload := raw |} :: rest ->
       exited (step (Listen i) w) = Some (FatalDecode SyntaxError).
Proof.
  intros Hscan.
  assert (forall e0, addDetails e0 raw = Stop (FatalDecode SyntaxError)) as Hall.
  { intros e0. unfold addDetails, Unmarshal. rewrite Hscan.
    by repeat match goal with
              | |- context [if ?b then _ else _] => destruct b
              end. }
  split; [apply Hall|].
  intros i w socket l rest Hrun Hs Hl Hpc Hp.
  assert (step (Listen i) w = listen_step i w) as -> by (unfold step; by rewrite Hrun).
  rewrite (listen_step_recv i w socket l _ rest Hs Hl Hpc Hp). cbn.
  by rewrite Hall.
Qed.


(** ** Further facts: the name table over a run *)

Lemma payloads_set_pc (i : nat) (p : Pc) (w : World) : payloads (set_pc i p w) = payloads w.
Proof. unfold set_pc. by destruct (listeners w !! i). Qed.

Lemma payloads_start_sockets (n : nat) (ev : Z)
    (dial : nat -> (Z -> string -> string + string) + string) (w : World) :
  payloads (start_sockets n ev dial w) = payloads w.
Proof.
  revert ev w. induction n as [|n IH]; intros ev w; [done|].
  cbn [start_sockets]. destruct (dial (dialed w)) as [raw|msg]; [|done].
  destruct (subscribe _ _ _) as [[err|]|x]; [done| |done].
  by rewrite IH.
Qed.

Lemma payloads_listen_step (i : nat) (w : World) : payloads (listen_step i w) = payloads w.
Proof.
  unfold listen_step.
  destruct (eventSockets w !! i) as [socket|]; [|done].
  destruct (listeners w !! i) as [l|]; [|done].
  destruct (pc l) as [| |event [|subscriber rest]|]; try done.
  - destruct (negb (open socket)); by rewrite payloads_set_pc.
  - destruct (pending socket) as [|[what|msg] rest]; [done|by rewrite payloads_set_pc|].
    destruct (negb (Message_IsEvent msg)); [by rewrite payloads_set_pc|].
    by destruct (addDetails _ _).
  - by rewrite payloads_set_pc.
  - rewrite payloads_set_pc. by destruct (chans w !! subscriber).
Qed.

Lemma payloads_step (a : Action) (w : World) :
  payloads (step a w) = payloads w
  \/ exists name, a = CallAddEventType name /\ exited w = None
                  /\ payloads (step a w) = payloads w ++ [name].
Proof.
  unfold step. destruct (exited w) eqn:Hrun; [by left|].
  destruct a as [dial|name|ev|i|i r|i|c|c].
  - left. unfold StartEventListener. destruct (negb _); [done|].
    apply payloads_start_sockets.
  - right. by exists name.
  - left. unfold Subscribe. destruct (_ || _); [done|].
    by destruct (index _ ev).
  - left. apply payloads_listen_step.
  - left. by destruct (eventSockets w !! i).
  - left. by destruct (eventSockets w !! i).
  - left. by destruct (chans w !! c).
  - left. by destruct (chans w !! c).
Qed.

Lemma payloads_run (acts : list Action) (w : World) :
  payloads w `prefix_of` payloads (run acts w).
Proof.
  revert w. induction acts as [|a acts IH]; intros w; [done|].
  rewrite run_cons. etrans; [|apply IH].
  destruct (payloads_step a w) as [->|(name & _ & _ & ->)]; [done|].
  by apply prefix_app_r.
Qed.

Lemma exited_run (acts : list Action) (w : World) :
  exited (run acts w) = None -> exited w = None.
Proof.
  intros H. destruct (exited w) as [x|] eqn:Hx; [|done].
  by rewrite (run_exited acts w x Hx), Hx in H.
Qed.

(** X3.  The name table only grows at its end: whatever the process does
    after a state, a name found at an index of [payloads] in that state is
    found at the same index ever after. *)
Theorem payloads_entries_are_stable (w : World) (acts : list Action) (id : Z) (name : string) :
  index (payloads w) id = Some name ->
  index (payloads (run acts w)) id = Some name
  /\ (length (payloads w) <= length (payloads (run acts w)))%nat.
Proof.
  intros [Hid Hn]%index_Some. pose proof (payloads_run acts w) as Hpre.
  split; [|by apply prefix_length].
  apply index_Some. split; [done|]. by eapply prefix_lookup_Some.
Qed.

(** X4.  Once [AddEventType] has been called, every call of
    [StartEventListener] ends the process: the table holds more names than
    [eventmax], and keeps them. *)
Theorem StartEventListener_after_AddEventType_is_fatal
    (before after : list Action) (name : string)
    (dial : nat -> (Z -> string -> string + string) + string) :
  exited (run (before ++ CallAddEventType name :: after) init) = None ->
  eventmax < Z.of_nat (length (payloads (run (before ++ CallAddEventType name :: after) init)))
  /\ exited (step (CallStartEventListener dial)
                  (run (before ++ CallAddEventType name :: after) init))
     = Some (FatalPayloadCount
               (Z.of_nat (length (payloads
                                    (run (before ++ CallAddEventType name :: after) init))))
               eventmax).
Proof.
  unfold run at 1 2 3 4. rewrite fold_left_app. cbn [fold_left].
  fold (run before init). set (w1 := run before init).
  fold (run after (step (CallAddEventType name) w1)).
  intros Hrun.
  pose proof (exited_run _ _ Hrun) as Hrun2.
  assert (exited w1 = None) as Hrun1.
  { destruct (exited w1) as [x|] eqn:Hx; [|done].
    by rewrite (step_exited _ _ x Hx), Hx in Hrun2. }
  assert (payloads (step (CallAddEventType name) w1) = payloads w1 ++ [name]) as Hadd
    by (unfold step; by rewrite Hrun1).
  pose proof (payloads_run after (step (CallAddEventType name) w1)) as Hpre.
  apply prefix_length in Hpre. rewrite Hadd, length_app in Hpre. cbn [length] in Hpre.
  destruct (well_formed_run before init well_formed_init) as [_ Hinit].
  apply prefix_length in Hinit. cbn [length payloads_init] in Hinit. fold w1 in Hinit.
  assert (eventmax <
          Z.of_nat (length (payloads (run after (step (CallAddEventType name) w1))))) as Hlen
    by (unfold eventmax; lia).
  split; [done|].
  unfold step at 1. rewrite Hrun. unfold StartEventListener.
  destruct (Z.eqb_spec (Z.of_nat (length (payloads
             (run after (step (CallAddEventType name) w1))))) eventmax) as [Heq|_]; [lia|].
  done.
Qed.

(** X5.  The id that [AddEventType] returns is of no use to [Subscribe]:
    in a reachable state with fewer than 2^31 names, the id is at least
    [eventmax], and [Subscribe] rejects it then and ever after. *)
Theorem Subscribe_rejects_id_of_AddEventType (w : World) (name : string) (acts : list Action) :
  reachable w ->
  Z.of_nat (length (payloads w)) < 2 ^ 31 ->
  eventmax <= fst (AddEventType name w)
  /\ Subscribe (fst (AddEventType name w)) (run acts (snd (AddEventType name w)))
     = Ok (None, Some (SubscribeError "No such event type."),
           run acts (snd (AddEventType name w))).
Proof.
  intros Hreach Hsize.
  destruct (reachable_well_formed w Hreach) as [_ Hinit].
  apply prefix_length in Hinit. cbn [length payloads_init] in Hinit.
  assert (fst (AddEventType name w) = Z.of_nat (length (payloads w))) as ->.
  { unfold AddEventType. cbn [fst set_payloads payloads]. rewrite length_app. cbn [length].
    rewrite int32_small by lia. lia. }
  assert (eventmax <= Z.of_nat (length (payloads w))) as Hge by (unfold eventmax; lia).
  split; [done|]. apply Subscribe_eventmax_or_more. by right.
Qed.


(** ** Further facts: startup *)

Lemma start_sockets_frame (n : nat) (ev : Z)
    (dial : nat -> (Z -> string -> string + string) + string) (w : World) :
  exists news,
    eventSockets (start_sockets n ev dial w) = eventSockets w ++ news
    /\ listeners (start_sockets n ev dial w)
       = listeners w ++ replicate (length news) {| pc := AtTop; decoded := [] |}
    /\ Forall (fun s => open s = true /\ subscribers s = [] /\ pending s = []) news
    /\ chans (start_sockets n ev dial w) = chans w
    /\ (length news <= n)%nat
    /\ (exited (start_sockets n ev dial w) = None ->
        length news = n /\ dialed (start_sockets n ev dial w) = (dialed w + n)%nat).
Proof.
  revert ev w. induction n as [|n IH]; intros ev w.
  { exists []. cbn. rewrite !app_nil_r. repeat split; try done; try lia. }
  cbn [start_sockets]. destruct (dial (dialed w)) as [raw|msg].
  2:{ exists []. cbn. rewrite !app_nil_r. repeat split; try done; try lia. }
  destruct (subscribe _ _ _) as [[err|]|x].
  1,3: exists []; cbn; rewrite !app_nil_r; repeat split; try done; try lia.
  match goal with
  | |- context [start_sockets n (ev + 1) dial ?w3] =>
      destruct (IH (ev + 1) w3) as (news & Hs & Hl & Hnew & Hc & Hlen & Hok);
      remember (start_sockets n (ev + 1) dial w3) as w' eqn:Hw'
  end.
  clear Hw'. cbn in Hs, Hl, Hc, Hok.
  exists (new_socket raw :: news). rewrite Hs, Hl, Hc. cbn.
  rewrite <- !app_assoc. cbn. split; [done|]. split; [done|].
  split; [by constructor|]. split; [done|]. split; [lia|].
  intros Hrun. destruct (Hok Hrun) as [-> Hd]. split; [done|]. rewrite Hd. lia.
Qed.

Lemma start_sockets_succeeds_iff (n : nat) (ev : nat)
    (dial : nat -> (Z -> string -> string + string) + string) (w : World) :
  exited w = None ->
  exited (start_sockets n (Z.of_nat ev) dial w) = None
  <-> forall k, (k < n)%nat ->
        exists raw, dial (dialed w + k)%nat = inl raw
                    /\ subscribe (new_socket raw) (payloads w) (Z.of_nat (ev + k)) = Ok None.
Proof.
  revert ev w. induction n as [|n IH]; intros ev w Hrun.
  { cbn. split; [intros _ k; lia|done]. }
  cbn [start_sockets]. cbn [payloads set_dialed].
  destruct (dial (dialed w)) as [raw|msg] eqn:Hdial.
  2:{ split; [done|]. intros H. destruct (H 0%nat) as (raw & Hr & _); [lia|].
      rewrite Nat.add_0_r in Hr. congruence. }
  destruct (subscribe (new_socket raw) (payloads w) (Z.of_nat ev)) as [[err|]|x] eqn:Hsub.
  1,3: split; [done|]; intros H; destruct (H 0%nat) as (raw' & Hr & Hs); [lia|];
       rewrite Nat.add_0_r in Hr, Hs; congruence.
  replace (Z.of_nat ev + 1) with (Z.of_nat (S ev)) by lia.
  rewrite IH by done. cbn [dialed payloads set_eventSockets set_listeners set_dialed].
  split.
  - intros H [|k] Hk.
    + exists raw. by rewrite !Nat.add_0_r.
    + destruct (H k) as (raw' & Hr & Hs); [lia|]. exists raw'.
      replace (dialed w + S k)%nat with (S (dialed w) + k)%nat by lia.
      by replace (ev + S k)%nat with (S ev + k)%nat by lia.
  - intros H k Hk. destruct (H (S k)) as (raw' & Hr & Hs); [lia|]. exists raw'.
    replace (S (dialed w) + k)%nat with (dialed w + S k)%nat by lia.
    by replace (S ev + k)%nat with (ev + S k)%nat by lia.
Qed.

(** X6.  [StartEventListener] returns exactly when [payloads] holds
    [eventmax] names and each of the [eventmax] iterations, in the order of
    the event types, gets a connection and an accepted subscription.  It
    has then called [GetIPCSocket] [eventmax] times and left [eventmax]
    more sockets, each open and without subscriber, with one goroutine
    each at the head of its loop; channels and names are untouched. *)
Theorem StartEventListener_succeeds_iff
    (dial : nat -> (Z -> string -> string + string) + string) (w : World) :
  exited w = None ->
  (exited (StartEventListener dial w) = None
   <-> Z.of_nat (length (payloads w)) = eventmax
       /\ forall k, (k < Z.to_nat eventmax)%nat -> iteration_ok dial (payloads w) (dialed w) k)
  /\ (exited (StartEventListener dial w) = None ->
      exists news,
        length news = Z.to_nat eventmax
        /\ eventSockets (StartEventListener dial w) = eventSockets w ++ news
        /\ Forall (fun s => open s = true /\ subscribers s = [] /\ pending s = []) news
        /\ listeners (StartEventListener dial w)
           = listeners w ++ replicate (Z.to_nat eventmax) {| pc := AtTop; decoded := [] |}
        /\ dialed (StartEventListener dial w) = (dialed w + Z.to_nat eventmax)%nat
        /\ chans (StartEventListener dial w) = chans w
        /\ payloads (StartEventListener dial w) = payloads w).
Proof.
  intros Hrun. unfold StartEventListener, iteration_ok.
  destruct (Z.eqb_spec (Z.of_nat (length (payloads w))) eventmax) as [Heq|Hne]; cbn [negb].
  - split.
    + change 0 with (Z.of_nat 0). rewrite (start_sockets_succeeds_iff _ 0 dial w Hrun).
      cbn [Nat.add]. split; [by split|by intros [_ ?]].
    + intros Hok.
      destruct (start_sockets_frame (Z.to_nat (eventmax - 0)) 0 dial w)
        as (news & Hs & Hl & Hnew & Hc & _ & Hlen).
      destruct (Hlen Hok) as [Hn Hd]. exists news.
      rewrite Hs, Hl, Hc, Hd, Hn, payloads_start_sockets. done.
  - split; [|done]. cbn. split; [done|]. by intros [? _].
Qed.


(** ** Further facts: the subscribers over a run *)

Lemma eventSockets_set_pc (i : nat) (p : Pc) (w : World) :
  eventSockets (set_pc i p w) = eventSockets w.
Proof. unfold set_pc. by destruct (listeners w !! i). Qed.

Lemma subscribers_listen_step (i : nat) (w : World) :
  subscribers <$> eventSockets (listen_step i w) = subscribers <$> eventSockets w.
Proof.
  unfold listen_step.
  destruct (eventSockets w !! i) as [socket|] eqn:Hs; [|done].
  destruct (listeners w !! i) as [l|]; [|done].
  destruct (pc l) as [| |event [|subscriber rest]|]; try done.
  - destruct (negb (open socket)); by rewrite eventSockets_set_pc.
  - destruct (pending socket) as [|r rest]; [done|].
    assert (subscribers <$> <[i := set_pending rest socket]> (eventSockets w)
            = subscribers <$> eventSockets w) as Hsame by (by eapply fmap_insert_same).
    destruct r as [what|msg]; [by rewrite eventSockets_set_pc|].
    destruct (negb (Message_IsEvent msg)); [by rewrite eventSockets_set_pc|].
    by destruct (addDetails _ _).
  - by rewrite eventSockets_set_pc.
  - rewrite eventSockets_set_pc. by destruct (chans w !! subscriber).
Qed.

(** What a step does to the subscriber slices: new sockets without
    subscribers at the end, or one new channel at the end of one slice. *)
Lemma subscribers_step (a : Action) (w : World) :
  (exists k, subscribers <$> eventSockets (step a w)
             = (subscribers <$> eventSockets w) ++ replicate k [])
  \/ (exists ev socket,
        a = CallSubscribe ev /\ 0 <= ev < eventmax
        /\ eventSockets w !! Z.to_nat ev = Some socket
        /\ subscribers <$> eventSockets (step a w)
           = <[Z.to_nat ev := subscribers socket ++ [length (chans w)]]>
               (subscribers <$> eventSockets w)
        /\ chans (step a w) = chans w ++ [Chan.make 0]).
Proof.
  assert (forall w' : World,
            subscribers <$> eventSockets w' = subscribers <$> eventSockets w ->
            exists k, subscribers <$> eventSockets w'
                      = (subscribers <$> eventSockets w) ++ replicate k []) as Hsame.
  { intros w' ->. exists 0%nat. by rewrite app_nil_r. }
  unfold step. destruct (exited w) eqn:Hrun; [left; by apply Hsame|].
  destruct a as [dial|name|ev|i|i r|i|c|c].
  - left. unfold StartEventListener. destruct (negb _); [by apply Hsame|].
    destruct (start_sockets_frame (Z.to_nat (eventmax - 0)) 0 dial w)
      as (news & -> & _ & Hnew & _).
    exists (length news). rewrite fmap_app. f_equal.
    clear -Hnew. induction Hnew as [|s news (_ & Hs & _) _ IH]; [done|].
    cbn. by rewrite Hs, IH.
  - left. by apply Hsame.
  - unfold Subscribe.
    destruct (Z.geb_spec ev eventmax); [left; by apply Hsame|].
    destruct (Z.ltb_spec ev 0); [left; by apply Hsame|]. cbn [orb].
    destruct (index _ ev) as [socket|] eqn:Hi; [|left; by apply Hsame].
    apply index_Some in Hi as [_ Hi]. right. exists ev, socket.
    split; [done|]. split; [lia|]. split; [done|]. cbn. by rewrite list_fmap_insert.
  - left. apply Hsame, subscribers_listen_step.
  - left. apply Hsame. destruct (eventSockets w !! i) as [socket|] eqn:Hi; [|done].
    cbn. by eapply fmap_insert_same.
  - left. apply Hsame. destruct (eventSockets w !! i) as [socket|] eqn:Hi; [|done].
    cbn. by eapply fmap_insert_same.
  - left. apply Hsame. by destruct (chans w !! c).
  - left. apply Hsame. by destruct (chans w !! c).
Qed.

Lemma subscribers_step_prefix (a : Action) (w : World) (i : nat) (subs : list nat) :
  (subscribers <$> eventSockets w) !! i = Some subs ->
  exists subs', (subscribers <$> eventSockets (step a w)) !! i = Some subs'
                /\ subs `prefix_of` subs'.
Proof.
  intros Hi. destruct (subscribers_step a w) as [[k ->]|(ev & socket & _ & _ & Hs & -> & _)].
  - exists subs. split; [by apply lookup_app_l_Some|done].
  - destruct (decide (Z.to_nat ev = i)) as [<-|Hne].
    + rewrite list_lookup_fmap, Hs in Hi. injection Hi as <-.
      exists (subscribers socket ++ [length (chans w)]). split; [|by apply prefix_app_r].
      apply list_lookup_insert_eq. rewrite length_fmap. by eapply lookup_lt_Some.
    + exists subs. split; [|done]. by rewrite list_lookup_insert_ne.
Qed.

(** X7.  Nothing removes a socket or a subscriber: whatever the process
    does after a state, a socket of [eventSockets] stays at its index, and
    the subscribers it had stay, in their order, at the front of its
    slice. *)
Theorem subscribers_are_never_removed (w : World) (acts : list Action)
    (i : nat) (socket : IPCSocket) :
  eventSockets w !! i = Some socket ->
  exists socket', eventSockets (run acts w) !! i = Some socket'
                  /\ subscribers socket `prefix_of` subscribers socket'.
Proof.
  intros Hi.
  assert (exists subs', (subscribers <$> eventSockets (run acts w)) !! i = Some subs'
                        /\ subscribers socket `prefix_of` subs') as (subs' & Hs' & Hpre).
  { assert ((subscribers <$> eventSockets w) !! i = Some (subscribers socket)) as HS
      by (by rewrite list_lookup_fmap, Hi).
    clear Hi. revert w HS. generalize (subscribers socket) as subs.
    induction acts as [|a acts IH]; intros subs w HS; [by exists subs|].
    rewrite run_cons.
    destruct (subscribers_step_prefix a w i subs HS) as (subs1 & H1 & Hp1).
    destruct (IH subs1 (step a w) H1) as (subs' & H' & Hp'). exists subs'.
    split; [done|]. by etrans. }
  rewrite list_lookup_fmap in Hs'.
  destruct (eventSockets (run acts w) !! i) as [socket'|]; [|done].
  injection Hs' as <-. by exists socket'.
Qed.

(** X8.  [Subscribe] only ever reaches the sockets at the indices below
    [eventmax]: in every reachable state a socket stored at a higher index,
    as a second call of [StartEventListener] leaves them, has no
    subscriber. *)
Theorem sockets_from_eventmax_on_have_no_subscriber (w : World) (i : nat) (socket : IPCSocket) :
  reachable w ->
  eventSockets w !! i = Some socket ->
  (Z.to_nat eventmax <= i)%nat ->
  subscribers socket = [].
Proof.
  intros [acts ->] Hi Hge.
  assert (forall subs, (subscribers <$> eventSockets (run acts init)) !! i = Some subs ->
                       subs = []) as Hall.
  { clear Hi. induction acts as [|a acts IH] using rev_ind; intros subs.
    - cbn. by rewrite lookup_nil.
    - rewrite run_snoc.
      destruct (subscribers_step a (run acts init))
        as [[k ->]|(ev & s & _ & Hev & _ & -> & _)].
      + intros [Hold|[_ [-> _]%lookup_replicate]]%lookup_app_Some; [by apply IH|done].
      + rewrite list_lookup_insert_ne by lia. apply IH. }
  apply Hall. by rewrite list_lookup_fmap, Hi.
Qed.


(** ** Further facts: what a goroutine writes *)

Lemma chans_set_pc (i : nat) (p : Pc) (w : World) : chans (set_pc i p w) = chans w.
Proof. unfold set_pc. by destruct (listeners w !! i). Qed.

Lemma listeners_set_pc_ne (i j : nat) (p : Pc) (w : World) :
  i <> j -> listeners (set_pc j p w) !! i = listeners w !! i.
Proof.
  intros Hne. unfold set_pc. destruct (listeners w !! j); [|done].
  cbn. by rewrite list_lookup_insert_ne.
Qed.

(** A step of a goroutine leaves the other goroutines where they are. *)
Lemma listeners_listen_step_ne (i j : nat) (w : World) :
  i <> j -> listeners (listen_step j w) !! i = listeners w !! i.
Proof.
  intros Hne. unfold listen_step.
  destruct (eventSockets w !! j) as [socket|]; [|done].
  destruct (listeners w !! j) as [l|]; [|done].
  destruct (pc l) as [| |event [|subscriber rest]|]; try done.
  - destruct (negb (open socket)); by rewrite listeners_set_pc_ne.
  - destruct (pending socket) as [|[what|msg] rest]; [done|by rewrite listeners_set_pc_ne|].
    destruct (negb (Message_IsEvent msg)); [by rewrite listeners_set_pc_ne|].
    destruct (addDetails _ _); [|done]. cbn. by rewrite list_lookup_insert_ne.
  - by rewrite listeners_set_pc_ne.
  - rewrite listeners_set_pc_ne by done. by destruct (chans w !! subscriber).
Qed.

(** A step of a goroutine leaves a channel as it is, unless the goroutine
    is in its [range] loop and the channel is the next subscriber. *)
Lemma chans_listen_step (j : nat) (w : World) (c : nat) :
  chans (listen_step j w) !! c = chans w !! c
  \/ exists socket l event rest ch,
       eventSockets w !! j = Some socket /\ listeners w !! j = Some l
       /\ pc l = InRange event (c :: rest) /\ chans w !! c = Some ch
       /\ chans (listen_step j w) !! c = Some (fst (Chan.try_send event ch)).
Proof.
  unfold listen_step.
  destruct (eventSockets w !! j) as [socket|] eqn:Hs; [|by left].
  destruct (listeners w !! j) as [l|] eqn:Hl; [|by left].
  destruct (pc l) as [| |event [|subscriber rest]|] eqn:Hpc; try by left.
  - left. destruct (negb (open socket)); by rewrite chans_set_pc.
  - left. destruct (pending socket) as [|[what|msg] rest]; [done|by rewrite chans_set_pc|].
    destruct (negb (Message_IsEvent msg)); [by rewrite chans_set_pc|].
    by destruct (addDetails _ _).
  - left. by rewrite chans_set_pc.
  - rewrite chans_set_pc. destruct (chans w !! subscriber) as [ch|] eqn:Hc; [|by left].
    cbn. destruct (decide (subscriber = c)) as [->|Hne].
    + right. exists socket, l, event, rest, ch. do 4 (split; [done|]).
      apply list_lookup_insert_eq. by eapply lookup_lt_Some.
    + left. by rewrite list_lookup_insert_ne.
Qed.

(** X9.  Run to its end, the [range] loop hands the event to every
    subscriber on which a receiver is waiting, to all of them the same
    event, and leaves the others as they are. *)
Theorem broadcast_serves_every_waiting_subscriber (i : nat) (w : World)
    (socket : IPCSocket) (l : Listener) (event : Event) (subs : list nat) (c : nat) :
  reachable w -> exited w = None ->
  eventSockets w !! i = Some socket -> listeners w !! i = Some l ->
  pc l = InRange event subs ->
  c ∈ subs ->
  exists ch,
    chans w !! c = Some ch
    /\ chans (run (replicate (length subs) (Listen i)) w) !! c
       = Some (if (0 <? Chan.recvq ch)%nat
               then Chan.mk 0 [] (Chan.recvq ch - 1) (Chan.received ch ++ [event])
               else ch).
Proof.
  intros Hreach Hrun Hs Hl Hpc Hc.
  destruct (reachable_well_formed w Hreach) as [(_ & Hch & _ & _ & Hrest) _].
  destruct (Hrest i (subscribers socket) l event subs) as [Hnd Hsub];
    [by rewrite list_lookup_fmap, Hs|done..|].
  destruct (Hch i (subscribers socket) c) as (ch & Hcc & Hcap & Hbuf);
    [by rewrite list_lookup_fmap, Hs|by apply Hsub|].
  exists ch. split; [done|].
  destruct (range_loop_run i event subs w l Hrun (mk_is_Some _ _ Hs) Hl Hpc) as (-> & _).
  rewrite broadcast_lookup by done. rewrite decide_True by done. rewrite Hcc.
  cbn [fmap option_fmap option_map]. f_equal.
  rewrite (try_send_unbuffered event ch Hcap), Hbuf.
  by destruct (0 <? Chan.recvq ch)%nat.
Qed.

(** X10.  A step of the goroutine of socket [i] changes a channel only
    when the channel is a subscriber of that socket, is the next one in
    the [range] loop, and has a receiver waiting; the change is the
    delivery of the event being broadcast. *)
Theorem listen_writes_only_to_own_subscribers (i : nat) (w : World) (c : nat) :
  reachable w ->
  chans (step (Listen i) w) !! c <> chans w !! c ->
  exists socket l event rest ch,
    eventSockets w !! i = Some socket /\ c ∈ subscribers socket
    /\ listeners w !! i = Some l /\ pc l = InRange event (c :: rest)
    /\ chans w !! c = Some ch /\ (0 < Chan.recvq ch)%nat
    /\ chans (step (Listen i) w) !! c
       = Some (Chan.mk 0 [] (Chan.recvq ch - 1) (Chan.received ch ++ [event])).
Proof.
  intros Hreach Hchg. unfold step in *. destruct (exited w); [done|].
  destruct (chans_listen_step i w c)
    as [Hsame|(socket & l & event & rest & ch & Hs & Hl & Hpc & Hc & Hnew)]; [done|].
  destruct (reachable_well_formed w Hreach) as [(_ & Hch & _ & _ & Hrest) _].
  destruct (Hrest i (subscribers socket) l event (c :: rest)) as [_ Hsub];
    [by rewrite list_lookup_fmap, Hs|done..|].
  assert (c ∈ subscribers socket) as Hin by (apply Hsub; by apply elem_of_cons; left).
  destruct (Hch i (subscribers socket) c) as (ch' & Hc' & Hcap & Hbuf);
    [by rewrite list_lookup_fmap, Hs|done|].
  rewrite Hc in Hc'. injection Hc' as <-.
  rewrite (try_send_unbuffered event ch Hcap), Hbuf in Hnew.
  exists socket, l, event, rest, ch. do 5 (split; [done|]).
  destruct (Nat.ltb_spec 0 (Chan.recvq ch)); [done|].
  cbn in Hnew. rewrite Hnew, Hc in Hchg. done.
Qed.

(** X11.  The channel that [Subscribe] returns is new: in the state of the
    call it is no subscriber of any socket and is not awaited by any
    [range] loop in progress; after the call it is a subscriber of the
    socket of its event type and of no other, and the goroutines are where
    they were. *)
Theorem Subscribe_returns_fresh_channel (w w' : World) (ev : Z) (c : nat) (err : option error) :
  reachable w ->
  Subscribe ev w = Ok (Some c, err, w') ->
  (forall i s, eventSockets w !! i = Some s -> c ∉ subscribers s)
  /\ (forall i l e rest, listeners w !! i = Some l -> pc l = InRange e rest -> c ∉ rest)
  /\ (forall i s, eventSockets w' !! i = Some s -> c ∈ subscribers s <-> i = Z.to_nat ev)
  /\ listeners w' = listeners w.
Proof.
  intros Hreach. unfold Subscribe.
  destruct (_ || _); [done|].
  destruct (index _ ev) as [socket|] eqn:Hi; [|done].
  apply index_Some in Hi as [_ Hi]. cbn in Hi.
  intros [= <- <- <-].
  destruct (reachable_well_formed w Hreach) as [(Hlen & Hch & _ & _ & Hrest) _].
  assert (forall i s, eventSockets w !! i = Some s -> length (chans w) ∉ subscribers s)
    as Hfresh.
  { intros i s Hs Hin.
    destruct (Hch i (subscribers s) (length (chans w))) as (ch & Hc & _);
      [by rewrite list_lookup_fmap, Hs|done|].
    apply lookup_lt_Some in Hc. lia. }
  split; [done|]. split; [|split; [|done]].
  - intros i l e rest Hl Hpc Hin.
    destruct (lookup_lt_is_Some_2 (eventSockets w) i) as [s Hs].
    { rewrite <- (length_fmap subscribers), <- Hlen. by eapply lookup_lt_Some. }
    destruct (Hrest i (subscribers s) l e rest) as [_ Hsub];
      [by rewrite list_lookup_fmap, Hs|done..|].
    by apply (Hfresh i s Hs), Hsub.
  - intros i s. cbn.
    intros [[<- [<- _]]|[Hne Hs]]%list_lookup_insert_Some.
    + cbn. split; [done|]. intros _. apply elem_of_app. right. by apply list_elem_of_singleton.
    + split; [|done]. intros Hin. by destruct (Hfresh i s Hs).
Qed.


(** ** Further facts: who delivers to a subscriber *)

(** Only its own steps move a goroutine. *)
Lemma listeners_step_ne (a : Action) (w : World) (i : nat) (l : Listener) :
  a <> Listen i -> listeners w !! i = Some l -> listeners (step a w) !! i = Some l.
Proof.
  intros Ha Hl. unfold step. destruct (exited w); [done|].
  destruct a as [dial|name|ev|j|j r|j|c|c].
  - unfold StartEventListener. destruct (negb _); [done|].
    destruct (start_sockets_frame (Z.to_nat (eventmax - 0)) 0 dial w) as (news & _ & -> & _).
    by apply lookup_app_l_Some.
  - done.
  - unfold Subscribe. destruct (_ || _); [done|]. by destruct (index _ ev).
  - rewrite listeners_listen_step_ne; [done|]. congruence.
  - by destruct (eventSockets w !! j).
  - by destruct (eventSockets w !! j).
  - by destruct (chans w !! c).
  - by destruct (chans w !! c).
Qed.

Lemma Listen_or_not (a : Action) (i : nat) : a = Listen i \/ a <> Listen i.
Proof.
  destruct a as [dial|name|ev|j|j r|j|c|c]; try by right.
  destruct (decide (j = i)) as [->|Hne]; [by left|right; congruence].
Qed.

(** A goroutine that has returned stays so. *)
Lemma listeners_step_Returned (a : Action) (w : World) (i : nat) (l : Listener) :
  listeners w !! i = Some l -> pc l = Returned -> listeners (step a w) !! i = Some l.
Proof.
  intros Hl Hpc. destruct (Listen_or_not a i) as [->|Ha]; [|by apply listeners_step_ne].
  unfold step, listen_step. destruct (exited w); [done|].
  destruct (eventSockets w !! i); [|done]. by rewrite Hl, Hpc.
Qed.

Lemma chans_length_step (a : Action) (w : World) :
  (length (chans w) <= length (chans (step a w)))%nat.
Proof.
  unfold step. destruct (exited w); [done|].
  destruct a as [dial|name|ev|j|j r|j|c|c].
  - unfold StartEventListener. destruct (negb _); [done|].
    by destruct (start_sockets_frame (Z.to_nat (eventmax - 0)) 0 dial w)
      as (news & _ & _ & _ & -> & _).
  - done.
  - unfold Subscribe. destruct (_ || _); [done|].
    destruct (index _ ev); cbn; rewrite ?length_app; lia.
  - unfold listen_step.
    destruct (eventSockets w !! j) as [socket|]; [|done].
    destruct (listeners w !! j) as [l|]; [|done].
    destruct (pc l) as [| |event [|subscriber rest]|]; try done.
    + destruct (negb (open socket)); by rewrite chans_set_pc.
    + destruct (pending socket) as [|[what|msg] rest]; [done|by rewrite chans_set_pc|].
      destruct (negb (Message_IsEvent msg)); [by rewrite chans_set_pc|].
      by destruct (addDetails _ _).
    + by rewrite chans_set_pc.
    + rewrite chans_set_pc. destruct (chans w !! subscriber); [|done].
      cbn. by rewrite length_insert.
  - by destruct (eventSockets w !! j).
  - by destruct (eventSockets w !! j).
  - destruct (chans w !! c); [|done]. cbn. by rewrite length_insert.
  - destruct (chans w !! c); [|done]. cbn. by rewrite length_insert.
Qed.

(** What a subscriber of socket [i] has received is changed by no call,
    by no consumer and by no goroutine other than that of socket [i]. *)
Lemma received_step_ne (a : Action) (w : World) (i : nat) (socket : IPCSocket)
    (c : nat) (ch : Chan.t Event) :
  well_formed w -> eventSockets w !! i = Some socket -> c ∈ subscribers socket ->
  chans w !! c = Some ch -> a <> Listen i ->
  exists ch', chans (step a w) !! c = Some ch' /\ Chan.received ch' = Chan.received ch.
Proof.
  intros [(_ & Hch & _ & Hdisj & Hrest) _] Hs Hin Hc Ha.
  unfold step. destruct (exited w); [by exists ch|].
  destruct a as [dial|name|ev|j|j r|j|c'|c'].
  - unfold StartEventListener. destruct (negb _); [by exists ch|].
    destruct (start_sockets_frame (Z.to_nat (eventmax - 0)) 0 dial w)
      as (news & _ & _ & _ & -> & _). by exists ch.
  - by exists ch.
  - exists ch. split; [|done]. unfold Subscribe. destruct (_ || _); [done|].
    destruct (index _ ev); cbn; [|done]. by apply lookup_app_l_Some.
  - destruct (chans_listen_step j w c)
      as [->|(sj & l & event & rest & ch0 & Hsj & Hl & Hpc & _)]; [by exists ch|].
    destruct (Hrest j (subscribers sj) l event (c :: rest)) as [_ Hsub];
      [by rewrite list_lookup_fmap, Hsj|done..|].
    destruct Ha. f_equal.
    apply (Hdisj j i (subscribers sj) (subscribers socket) c);
      [by rewrite list_lookup_fmap, Hsj|by rewrite list_lookup_fmap, Hs| |done].
    apply Hsub. by apply elem_of_cons; left.
  - exists ch. by destruct (eventSockets w !! j).
  - exists ch. by destruct (eventSockets w !! j).
  - destruct (chans w !! c') as [ch0|] eqn:Hc'; [|by exists ch]. cbn.
    destruct (decide (c' = c)) as [->|Hne].
    + rewrite Hc in Hc'. injection Hc' as <-.
      destruct (Hch i (subscribers socket) c) as (ch' & Hcc & _ & Hbuf);
        [by rewrite list_lookup_fmap, Hs|done|].
      rewrite Hc in Hcc. injection Hcc as <-.
      eexists. split; [apply list_lookup_insert_eq; by eapply lookup_lt_Some|].
      unfold Chan.recv. by rewrite Hbuf.
    + exists ch. by rewrite list_lookup_insert_ne.
  - destruct (chans w !! c') as [ch0|] eqn:Hc'; [|by exists ch]. cbn.
    destruct (decide (c' = c)) as [->|Hne].
    + rewrite Hc in Hc'. injection Hc' as <-.
      eexists. split; [apply list_lookup_insert_eq; by eapply lookup_lt_Some|done].
    + exists ch. by rewrite list_lookup_insert_ne.
Qed.

Lemma stopped_step (a : Action) (w : World) (i : nat) (C0 : list (Chan.t Event))
    (evs : list Event) :
  well_formed w -> stopped i C0 evs w -> stopped i C0 evs (step a w).
Proof.
  intros Hw (Hlen & Hl & Hrec).
  split; [etrans; [exact Hlen|apply chans_length_step]|].
  split; [by apply listeners_step_Returned|].
  destruct (exited w) eqn:Hrun.
  { unfold step. rewrite Hrun. exact Hrec. }
  assert (forall c socket, eventSockets w !! i = Some socket -> c ∈ subscribers socket ->
            exists ch, chans (step a w) !! c = Some ch
                       /\ Chan.received ch = from_option Chan.received [] (C0 !! c)) as Hold.
  { intros c socket Hs Hin. destruct (Hrec c socket Hs Hin) as (ch & Hc & Hr).
    destruct (Listen_or_not a i) as [->|Ha].
    - exists ch. split; [|done]. unfold step, listen_step. by rewrite Hrun, Hs, Hl.
    - destruct (received_step_ne a w i socket c ch) as (ch' & Hc' & Hr'); [done..|].
      exists ch'. split; [done|congruence]. }
  destruct (lookup_lt_is_Some_2 (eventSockets w) i) as [socket Hs].
  { destruct Hw as [(HL & _) _]. rewrite <- (length_fmap subscribers), <- HL.
    by eapply lookup_lt_Some. }
  intros c socket' Hs' Hin.
  assert ((subscribers <$> eventSockets (step a w)) !! i = Some (subscribers socket')) as Hi
    by by rewrite list_lookup_fmap, Hs'.
  destruct (subscribers_step a w) as [[k Heq]|(ev & s & _ & _ & Hev & Heq & Hnew)];
    rewrite Heq in Hi.
  - apply lookup_app_Some in Hi as [Hi|[Hge _]].
    + rewrite list_lookup_fmap, Hs in Hi. injection Hi as Hi.
      apply (Hold c socket Hs). by rewrite Hi.
    + rewrite length_fmap in Hge. apply lookup_lt_Some in Hs. lia.
  - apply list_lookup_insert_Some in Hi as [(<- & Hi & _)|[_ Hi]].
    + rewrite Hs in Hev. injection Hev as <-. rewrite <- Hi in Hin.
      apply elem_of_app in Hin as [Hin| ->%list_elem_of_singleton]; [by apply (Hold c socket)|].
      rewrite Hnew. exists (Chan.make 0). split; [by apply list_lookup_middle|].
      by rewrite (lookup_ge_None_2 C0).
    + rewrite list_lookup_fmap, Hs in Hi. injection Hi as Hi.
      apply (Hold c socket Hs). by rewrite Hi.
Qed.

Lemma stopped_run (acts : list Action) (w : World) (i : nat) (C0 : list (Chan.t Event))
    (evs : list Event) :
  well_formed w -> stopped i C0 evs w -> stopped i C0 evs (run acts w).
Proof.
  revert w. induction acts as [|a acts IH]; intros w Hw Hst; [done|].
  apply IH; [by apply well_formed_step|by apply stopped_step].
Qed.

(** X12.  When the goroutine finds its socket closed at the head of the
    loop it returns, and that is final: whatever the process does
    afterwards, frames that arrive and sockets that are written included,
    the goroutine stays returned and decodes nothing more, and every
    subscriber of the socket, also one that [Subscribe] attaches later,
    holds exactly what it had received by then. *)
Theorem closed_socket_ends_delivery (i : nat) (w : World) (socket : IPCSocket)
    (l : Listener) (acts : list Action) :
  reachable w -> exited w = None ->
  eventSockets w !! i = Some socket -> listeners w !! i = Some l ->
  pc l = AtTop -> open socket = false ->
  listeners (run acts (step (Listen i) w)) !! i
    = Some {| pc := Returned; decoded := decoded l |}
  /\ forall c socket',
       eventSockets (run acts (step (Listen i) w)) !! i = Some socket' ->
       c ∈ subscribers socket' ->
       exists ch, chans (run acts (step (Listen i) w)) !! c = Some ch
                  /\ Chan.received ch = from_option Chan.received [] (chans w !! c).
Proof.
  intros Hreach Hrun Hs Hl Hpc Hopen.
  pose proof (reachable_well_formed w Hreach) as Hw.
  assert (step (Listen i) w = set_pc i Returned w) as Hstep.
  { unfold step, listen_step. by rewrite Hrun, Hs, Hl, Hpc, Hopen. }
  destruct (stopped_run acts (step (Listen i) w) i (chans w) (decoded l))
    as (_ & Hl' & Hrec); [by apply well_formed_step| |done].
  rewrite Hstep. unfold set_pc. rewrite Hl. cbn.
  split; [done|]. split; [apply list_lookup_insert_eq; by eapply lookup_lt_Some|].
  intros c s Hs' Hin. cbn in Hs'. rewrite Hs in Hs'. injection Hs' as <-.
  destruct Hw as [(_ & Hch & _) _].
  destruct (Hch i (subscribers socket) c) as (ch & Hc & _);
    [by rewrite list_lookup_fmap, Hs|done|].
  exists ch. by rewrite Hc.
Qed.


(** ** Further facts: a subscriber and the events before it *)








(** ** Further facts: one pass of the loop of [listen] *)

(** X14.  One pass through the body of the loop of [listen]: on an open
    socket whose next result of [recv] is an event frame that
    [addDetails] accepts, three steps and one for each subscriber bring
    the goroutine back to the head of the loop; the frame is consumed, the
    event is added to the decoded ones, every subscriber with a waiting
    receiver has been handed the event, and no other channel has
    changed. *)
Theorem listen_pass_delivers_event (i : nat) (w : World) (socket : IPCSocket)
    (l : Listener) (msg : Message) (rest : list RecvResult) (event : Event) :
  reachable w -> exited w = None ->
  eventSockets w !! i = Some socket -> listeners w !! i = Some l ->
  pc l = AtTop -> open socket = true ->
  pending socket = RecvMsg msg :: rest -> Message_IsEvent msg = true ->
  addDetails (zero_event (Message_Type msg)) (Message_Payload msg) = Ok event ->
  exited (run (replicate (3 + length (subscribers socket)) (Listen i)) w) = None
  /\ listeners (run (replicate (3 + length (subscribers socket)) (Listen i)) w)
     = <[i := {| pc := AtTop; decoded := decoded l ++ [event] |}]> (listeners w)
  /\ eventSockets (run (replicate (3 + length (subscribers socket)) (Listen i)) w)
     = <[i := set_pending rest socket]> (eventSockets w)
  /\ forall c,
       chans (run (replicate (3 + length (subscribers socket)) (Listen i)) w) !! c
       = if decide (c ∈ subscribers socket)
         then (fun ch => if (0 <? Chan.recvq ch)%nat
                         then Chan.mk 0 [] (Chan.recvq ch - 1) (Chan.received ch ++ [event])
                         else ch) <$> chans w !! c
         else chans w !! c.
Proof.
  intros Hreach Hrun Hs Hl Hpc Hopen Hpend Hev Hdec.
  destruct (reachable_well_formed w Hreach) as [(_ & Hch & Hnd & _) _].
  cbn [Nat.add replicate].
  change (Listen i :: replicate (length (subscribers socket)) (Listen i))
    with (replicate (S (length (subscribers socket))) (Listen i)).
  rewrite replicate_S_end, !run_cons, run_snoc.
  assert (step (Listen i) w
          = set_listeners (<[i := {| pc := InRecv; decoded := decoded l |}]> (listeners w)) w)
    as ->.
  { unfold step, listen_step. rewrite Hrun, Hs, Hl, Hpc, Hopen. cbn. by apply set_pc_eq. }
  set (w1 := set_listeners _ w).
  assert (listeners w1 !! i = Some {| pc := InRecv; decoded := decoded l |}) as Hl1.
  { apply list_lookup_insert_eq. by eapply lookup_lt_Some. }
  assert (step (Listen i) w1
          = set_listeners
              (<[i := {| pc := InRange event (subscribers socket);
                         decoded := decoded l ++ [event] |}]> (listeners w))
              (set_eventSockets (<[i := set_pending rest socket]> (eventSockets w)) w))
    as ->.
  { unfold step. cbn [exited w1 set_listeners]. rewrite Hrun.
    rewrite (listen_step_recv i w1 socket _ _ rest Hs Hl1 eq_refl Hpend).
    cbn zeta. rewrite Hev. cbn [negb]. rewrite Hdec. subst w1. cbn.
    by rewrite list_insert_insert_eq. }
  set (w2 := set_listeners _ _).
  assert (eventSockets w2 !! i = Some (set_pending rest socket)) as Hs2.
  { apply list_lookup_insert_eq. by eapply lookup_lt_Some. }
  destruct (range_loop_run i event (subscribers socket) w2
              {| pc := InRange event (subscribers socket); decoded := decoded l ++ [event] |})
    as (Hc3 & Hl3 & Hs3 & Hrun3);
    [done|by rewrite Hs2|apply list_lookup_insert_eq; by eapply lookup_lt_Some|done|].
  set (w3 := run _ w2) in *.
  assert (step (Listen i) w3
          = set_listeners
              (<[i := {| pc := AtTop; decoded := decoded l ++ [event] |}]> (listeners w)) w3)
    as ->.
  { assert (i < length (listeners w2))%nat as Hlt.
    { subst w2. cbn. rewrite length_insert. by eapply lookup_lt_Some. }
    unfold step, listen_step. rewrite Hrun3, Hs3, Hs2, Hl3.
    rewrite list_lookup_insert_eq by done.
    cbn [pc]. unfold set_pc. rewrite Hl3.
    rewrite list_lookup_insert_eq by done.
    subst w2. cbn. by rewrite !list_insert_insert_eq. }
  cbn. split; [done|]. split; [done|]. split; [by rewrite Hs3|].
  intros c. rewrite Hc3. cbn.
  rewrite broadcast_lookup by (apply (Hnd i); by rewrite list_lookup_fmap, Hs).
  destruct (decide (c ∈ subscribers socket)) as [Hin|]; [|done].
  destruct (Hch i (subscribers socket) c) as (ch & Hc & Hcap & Hbuf);
    [by rewrite list_lookup_fmap, Hs|done|].
  rewrite Hc. cbn [fmap option_fmap option_map]. f_equal.
  rewrite (try_send_unbuffered event ch Hcap), Hbuf.
  by destruct (Chan.recvq ch).
Qed.

(** ** Further facts: what a consumer finds in an event *)

Lemma addDetails_Ok (e e' : Event) (raw : string) :
  addDetails e raw = Ok e' ->
  Event_Type e' = Event_Type e
  /\ Details_for (Event_Type e) (Event_Details e')
  /\ Event_Change e' = Details_Change (Event_Details e').
Proof.
  unfold addDetails.
  destruct (Z.eqb_spec (Event_Type e) I3WorkspaceEvent) as [H0|H0].
  { destruct (Unmarshal dec_WorkspaceEvent raw WorkspaceEvent_zero) as [d [err|]];
      [done|]. by intros [= <-]. }
  destruct (Z.eqb_spec (Event_Type e) I3ModeEvent) as [H2|H2].
  { destruct (Unmarshal dec_ModeEvent raw ModeEvent_zero) as [d [err|]];
      [done|]. by intros [= <-]. }
  destruct (Z.eqb_spec (Event_Type e) I3WindowEvent) as [H3|H3].
  { destruct (Unmarshal dec_WindowEvent raw WindowEvent_zero) as [d [err|]];
      [done|]. by intros [= <-]. }
  destruct (Z.eqb_spec (Event_Type e) I3BindingEvent) as [H5|H5].
  { destruct (Unmarshal dec_BindingEvent raw BindingEvent_zero) as [d [err|]];
      [done|]. by intros [= <-]. }
  destruct (Unmarshal dec_BaseEvent raw BaseEvent_zero) as [d [err|]]; [done|].
  by intros [= <-].
Qed.

(** X15.  Every event that a subscriber reads carries the type of an event
    frame that arrived on the subscriber's socket, details of the struct
    that belongs to this type (never the nil interface), and in [Change]
    the [Change] of these details: the type assertion that the comment on
    [Event.Details] asks the consumer to make cannot fail. *)
Theorem received_event_is_fully_decoded (acts : list Action) (i : nat)
    (socket : IPCSocket) (c : nat) (ch : Chan.t Event) (e : Event) :
  eventSockets (run acts init) !! i = Some socket ->
  c ∈ subscribers socket ->
  chans (run acts init) !! c = Some ch ->
  e ∈ Chan.received ch ->
  Event_Details e <> NoDetails
  /\ Details_for (Event_Type e) (Event_Details e)
  /\ Event_Change e = Details_Change (Event_Details e)
  /\ exists msg, RecvMsg msg ∈ frames_for i acts /\ Message_IsEvent msg = true
                 /\ Event_Type e = Message_Type msg.
Proof.
  intros Hi Hc Hch He.
  destruct (received_from_event_frame acts i socket c ch e Hi Hc Hch He)
    as (msg & Hmsg & Hev & Hdec).
  apply addDetails_Ok in Hdec as (Ht & Hfor & Hchange). cbn in Ht, Hfor.
  rewrite <- Ht in Hfor.
  split; [intros Hno; by rewrite Hno in Hfor|]. split; [done|]. split; [done|].
  by exists msg.
Qed.

End Facts.

(** ** The facts on concrete runs *)

#[local] Existing Instance Sample.externals.

Import Sample.

(** The spec's example: a window event with [change] "focus" on
    container 1. *)
Example addDetails_focus :
  addDetails (zero_event I3WindowEvent) (Message_Payload focus)
  = Ok focus_event.
Proof. reflexivity. Qed.

(** *** C9 *)

(** The first name registered at run time gets id 6 and is found there. *)
Lemma AddEventType_returns_previous_size_witness :
  fst (AddEventType "tick" init) = 6
  /\ index (payloads (snd (AddEventType "tick" init))) 6 = Some "tick".
Proof.
  pose proof (AddEventType_returns_previous_size "tick" init) as H.
  destruct H as (H1 & H2 & _).
  - vm_compute. reflexivity.
  - split; [exact H1|]. rewrite H1 in H2. exact H2.
Defined.

(** After 2^31 - 6 registrations the table holds 2^31 names, and the
    next registration returns a negative id: the length does not fit
    [EventType]. *)
Lemma AddEventType_wraps_at_2_31 :
  Z.of_nat (length (payloads
                      (exec (replicate (Z.to_nat (2 ^ 31 - 6)) (CallAddEventType "tick")))))
  = 2 ^ 31
  /\ fst (AddEventType "tick"
            (exec (replicate (Z.to_nat (2 ^ 31 - 6)) (CallAddEventType "tick"))))
     = - 2 ^ 31.
Proof.
  unfold exec. rewrite run_AddEventType_replicate by reflexivity.
  unfold AddEventType. cbn [fst set_payloads payloads init].
  rewrite !length_app, length_replicate. cbn [length payloads_init].
  rewrite !Nat2Z.inj_add, Z2Nat.id by lia. split; [reflexivity|].
  replace (Z.of_nat 6 + (2 ^ 31 - 6) + Z.of_nat 1 - 1) with (2 ^ 31) by lia. reflexivity.
Qed.

(** *** C5 *)

(** A process that has registered one more name before it starts the
    listener stops there. *)
Lemma StartEventListener_count_mismatch_is_fatal_witness :
  exited
    (step (CallStartEventListener dial)
       (exec [CallAddEventType "tick"]))
  = Some (FatalPayloadCount
            (Z.of_nat (length (payloads (exec [CallAddEventType "tick"])))) eventmax)
  /\ dialed
       (step (CallStartEventListener dial)
          (exec [CallAddEventType "tick"]))
     = dialed (exec [CallAddEventType "tick"]).
Proof.
  pose proof (StartEventListener_count_mismatch_is_fatal
                dial (exec [CallAddEventType "tick"])) as H.
  destruct H as (H1 & H2 & _).
  - reflexivity.
  - vm_compute. discriminate.
  - split; [exact H1|exact H2].
Defined.

(** *** C8 *)

(** The handshake for window events with a server that accepts. *)
Lemma subscribe_handshake_witness :
  subscribe (new_socket accept) payloads_init I3WindowEvent = Ok None
  /\ scan (subscribe_request "window") = Some (JArray [JString "window"]).
Proof.
  pose proof (subscribe_handshake (new_socket accept) payloads_init
                I3WindowEvent "window") as H.
  destruct H as (H1 & H2 & _).
  - reflexivity.
  - split; [rewrite H1; reflexivity|]. apply H2. reflexivity.
Defined.

(** *** C3 *)

(** An output event with a further member is decoded into [BaseEvent]. *)
Lemma addDetails_generic_fallback_witness :
  addDetails (zero_event I3OutputEvent)
    (json_text "{'change':'unspecified','extra':[1,2]}")
  = Ok {| Event_Type := I3OutputEvent;
          Event_Details := OfBaseEvent {| BaseEvent_Change := "unspecified" |};
          Event_Change := "unspecified" |}.
Proof.
  pose proof (addDetails_generic_fallback (zero_event I3OutputEvent)
                (json_text "{'change':'unspecified','extra':[1,2]}")) as H.
  destruct H as (H1 & _); [vm_compute; discriminate..|].
  rewrite H1. reflexivity.
Defined.

(** An output event whose [change] is a number has no decoder of its own
    and yet is a decode failure: the process exits. *)
Lemma addDetails_fallback_can_fail :
  I3OutputEvent <> I3WorkspaceEvent /\ I3OutputEvent <> I3ModeEvent
  /\ I3OutputEvent <> I3WindowEvent /\ I3OutputEvent <> I3BindingEvent
  /\ addDetails (zero_event I3OutputEvent)
       (json_text "{'change':1}")
     = Stop (FatalDecode (UnmarshalTypeError "number 1" "string"))
  /\ exited (exec [CallStartEventListener dial; Arrive 1 (RecvMsg bad_output);
                        Listen 1; Listen 1])
     = Some (FatalDecode (UnmarshalTypeError "number 1" "string")).
Proof. repeat split; try discriminate; reflexivity. Qed.

(** *** C4 *)

(** The goroutine of output events receives [bad_output]. *)
Lemma decode_failure_is_fatal_witness :
  exited
    (step (Listen 1)
       (exec [CallStartEventListener dial; Arrive 1 (RecvMsg bad_output); Listen 1]))
  = Some (FatalDecode (UnmarshalTypeError "number 1" "string")).
Proof.
  pose proof (decode_failure_is_fatal 1
                (exec [CallStartEventListener dial; Arrive 1 (RecvMsg bad_output); Listen 1])
                (set_pending [RecvMsg bad_output] (new_socket accept))
                {| pc := InRecv; decoded := [] |} bad_output []
                (UnmarshalTypeError "number 1" "string")) as H.
  destruct H as (H1 & _); [reflexivity..|].
  exact H1.
Defined.

(** *** C7 *)

(** The goroutine of window events receives a reply to a command while a
    consumer is waiting: the channels are as before. *)
Lemma dropped_frame_is_not_delivered_witness :
  chans
    (step (Listen 3)
       (exec [CallStartEventListener dial; CallSubscribe I3WindowEvent; Receive 0;
              Arrive 3 (RecvMsg reply); Listen 3]))
  = chans (exec [CallStartEventListener dial; CallSubscribe I3WindowEvent; Receive 0;
                      Arrive 3 (RecvMsg reply); Listen 3]).
Proof.
  pose proof (dropped_frame_is_not_delivered 3
                (exec [CallStartEventListener dial; CallSubscribe I3WindowEvent; Receive 0;
                       Arrive 3 (RecvMsg reply); Listen 3])
                (set_pending [RecvMsg reply] (set_subscribers [0%nat] (new_socket accept)))
                {| pc := InRecv; decoded := [] |} (RecvMsg reply) []) as H.
  destruct H as (_ & _ & H3 & _); [reflexivity..|].
  exact H3.
Defined.

(** *** C6 *)

(** With seven names in the table, type 7 is rejected. *)
Lemma Subscribe_rejects_out_of_range_witness :
  Subscribe 7 (exec [CallStartEventListener dial; CallAddEventType "tick"])
  = Ok (None, Some (SubscribeError "No such event type."),
        exec [CallStartEventListener dial; CallAddEventType "tick"]).
Proof.
  apply (Subscribe_rejects_out_of_range).
  - exists [CallStartEventListener dial; CallAddEventType "tick"]. reflexivity.
  - right. vm_compute. discriminate.
Defined.

(** *** C2 *)

(** The first subscription to window events after startup. *)
Lemma Subscribe_accepts_below_eventmax_witness :
  exists w', Subscribe I3WindowEvent started = Ok (Some 0%nat, None, w')
             /\ subscribers <$> eventSockets w' = [[]; []; []; [0%nat]; []; []]
             /\ chans w' = [Chan.make 0].
Proof.
  pose proof (Subscribe_accepts_below_eventmax started I3WindowEvent
                (new_socket accept)) as H.
  destruct H as (H1 & _).
  - unfold I3WindowEvent, eventmax. lia.
  - reflexivity.
  - eexists. split; [exact H1|]. split; reflexivity.
Defined.

(** The id that [AddEventType] has returned for a name registered after
    startup lies in the range of the table, and [Subscribe] rejects it;
    and before [StartEventListener] has run, [Subscribe] on a built-in type
    finds no socket and panics. *)
Lemma Subscribe_rejects_registered_at_runtime :
  fst (AddEventType "tick" started) = 6
  /\ 0 <= 6 < Z.of_nat (length (payloads (snd (AddEventType "tick" started))))
  /\ Subscribe 6 (snd (AddEventType "tick" started))
     = Ok (None, Some (SubscribeError "No such event type."),
           snd (AddEventType "tick" started))
  /\ Subscribe I3WorkspaceEvent init = Stop (Panicked "index out of range").
Proof.
  split; [reflexivity|]. split; [|split; reflexivity].
  vm_compute. split; [discriminate|reflexivity].
Qed.

(** *** C1 and C10 *)

(** In the run [two_frames] the socket of window events is fed two events
    and a reply; the subscriber whose consumer was waiting has received
    the first event and the other one nothing: both are subsequences of
    what was fed. *)
Lemma broadcast_is_nonblocking_and_ordered_witness :
  omap frame_event (frames_for 3 two_frames) = [focus_event; title_event]
  /\ Chan.received <$> chans (exec two_frames) = [[focus_event]; []]
  /\ sublist [focus_event] (omap frame_event (frames_for 3 two_frames))
  /\ sublist [] (omap frame_event (frames_for 3 two_frames)).
Proof.
  pose proof (broadcast_is_nonblocking_and_ordered) as H.
  destruct H as (_ & _ & _ & _ & H).
  split; [reflexivity|]. split; [reflexivity|]. split.
  - exact (H two_frames 3%nat
             (set_subscribers [0%nat; 1%nat] (new_socket accept)) 0%nat
             (Chan.mk 0 [] 0 [focus_event]) eq_refl
             ltac:(apply elem_of_cons; left; reflexivity) eq_refl).
  - exact (H two_frames 3%nat
             (set_subscribers [0%nat; 1%nat] (new_socket accept)) 1%nat
             (Chan.mk 0 [] 0 []) eq_refl
             ltac:(apply elem_of_cons; right; apply elem_of_cons; left; reflexivity) eq_refl).
Defined.

(** On a channel as [Subscribe] makes it, a send goes through once a
    consumer has started to receive, and not before. *)
Lemma subscriber_queue_is_unbuffered_witness :
  Chan.try_send focus_event (Chan.recv (Chan.make 0))
  = (Chan.mk 0 [] 0 [focus_event], true)
  /\ Chan.try_send focus_event (Chan.make 0) = (Chan.make 0, false).
Proof.
  pose proof (subscriber_queue_is_unbuffered) as H.
  destruct H as (_ & _ & _ & H & _).
  split.
  - destruct (H focus_event (Chan.recv (Chan.make 0)) eq_refl) as (_ & H2 & _).
    apply injective_projections; [apply H2; cbn; lia|reflexivity].
  - destruct (H focus_event (Chan.make 0) eq_refl) as (_ & _ & H3).
    apply H3. reflexivity.
Defined.

(** *** Further facts *)

(** The window event of the spec's example: [addDetails] keeps its type
    and copies the [Change] of the details. *)
Lemma addDetails_fills_details_and_change_witness :
  Event_Type focus_event = Event_Type (zero_event I3WindowEvent)
  /\ Details_for (Event_Type (zero_event I3WindowEvent)) (Event_Details focus_event)
  /\ Event_Change focus_event = Details_Change (Event_Details focus_event)
  /\ addDetails (zero_event (Event_Type (zero_event I3WindowEvent))) (Message_Payload focus)
     = Ok focus_event.
Proof.
  apply (addDetails_fills_details_and_change (zero_event I3WindowEvent) focus_event
           (Message_Payload focus)).
  reflexivity.
Defined.

(** A payload cut off after the first member, for a window event. *)
Lemma addDetails_rejects_non_json_witness :
  addDetails (zero_event I3WindowEvent) (json_text "{'change':'focus',")
  = Stop (FatalDecode SyntaxError).
Proof.
  destruct (addDetails_rejects_non_json (zero_event I3WindowEvent)
              (json_text "{'change':'focus',")) as [H _]; [reflexivity|].
  exact H.
Defined.

(** The name of window events is at index 3 before and after a
    registration and the start of the listener. *)
Lemma payloads_entries_are_stable_witness :
  index (payloads (run [CallAddEventType "tick"; CallStartEventListener dial] init))
    I3WindowEvent = Some "window"
  /\ (length (payloads init)
      <= length (payloads (run [CallAddEventType "tick"; CallStartEventListener dial] init)))%nat.
Proof.
  apply (payloads_entries_are_stable init
           [CallAddEventType "tick"; CallStartEventListener dial] I3WindowEvent "window").
  reflexivity.
Defined.

(** A process that has started the listener and then registered a name
    cannot start the listener again. *)
Lemma StartEventListener_after_AddEventType_is_fatal_witness :
  eventmax
  < Z.of_nat (length (payloads
      (run ([CallStartEventListener dial] ++ CallAddEventType "tick" :: []) init)))
  /\ exited (step (CallStartEventListener dial)
               (run ([CallStartEventListener dial] ++ CallAddEventType "tick" :: []) init))
     = Some (FatalPayloadCount
               (Z.of_nat (length (payloads
                  (run ([CallStartEventListener dial] ++ CallAddEventType "tick" :: [])
                     init))))
               eventmax).
Proof.
  apply (StartEventListener_after_AddEventType_is_fatal
           [CallStartEventListener dial] [] "tick" dial).
  reflexivity.
Defined.

(** The id of a name registered after startup is rejected, also after a
    further subscription to window events. *)
Lemma Subscribe_rejects_id_of_AddEventType_witness :
  eventmax <= fst (AddEventType "tick" started)
  /\ Subscribe (fst (AddEventType "tick" started))
       (run [CallSubscribe I3WindowEvent] (snd (AddEventType "tick" started)))
     = Ok (None, Some (SubscribeError "No such event type."),
           run [CallSubscribe I3WindowEvent] (snd (AddEventType "tick" started))).
Proof.
  apply (Subscribe_rejects_id_of_AddEventType started "tick" [CallSubscribe I3WindowEvent]).
  - exists [CallStartEventListener dial]. reflexivity.
  - vm_compute. reflexivity.
Defined.

(** The first call of [StartEventListener], with a server that accepts
    every subscription. *)
Lemma StartEventListener_succeeds_iff_witness :
  exited (StartEventListener dial init) = None
  <-> Z.of_nat (length (payloads init)) = eventmax
      /\ forall k, (k < Z.to_nat eventmax)%nat ->
           iteration_ok dial (payloads init) (dialed init) k.
Proof.
  destruct (StartEventListener_succeeds_iff dial init) as [H _]; [reflexivity|].
  exact H.
Defined.

(** The first subscriber of window events is still the first after a
    second subscription and the closing of the socket. *)
Lemma subscribers_are_never_removed_witness :
  exists socket',
    eventSockets (run [CallSubscribe I3WindowEvent; CloseSocket 3]
                    (exec [CallStartEventListener dial; CallSubscribe I3WindowEvent]))
      !! 3%nat = Some socket'
    /\ subscribers (set_subscribers [0%nat] (new_socket accept))
         `prefix_of` subscribers socket'.
Proof.
  apply (subscribers_are_never_removed
           (exec [CallStartEventListener dial; CallSubscribe I3WindowEvent])
           [CallSubscribe I3WindowEvent; CloseSocket 3] 3
           (set_subscribers [0%nat] (new_socket accept))).
  reflexivity.
Defined.

(** After a second call of [StartEventListener] there are twelve sockets;
    the tenth has no subscriber, whatever was subscribed. *)
Lemma sockets_from_eventmax_on_have_no_subscriber_witness :
  eventSockets (exec [CallStartEventListener dial; CallStartEventListener dial;
                      CallSubscribe I3WindowEvent]) !! 9%nat = Some (new_socket accept)
  /\ subscribers (new_socket accept) = [].
Proof.
  split; [reflexivity|].
  apply (sockets_from_eventmax_on_have_no_subscriber
           (exec [CallStartEventListener dial; CallStartEventListener dial;
                  CallSubscribe I3WindowEvent]) 9 (new_socket accept)).
  - exists [CallStartEventListener dial; CallStartEventListener dial;
            CallSubscribe I3WindowEvent]. reflexivity.
  - reflexivity.
  - vm_compute. lia.
Defined.

(** Two subscribers of window events, a consumer waiting on the first:
    the goroutine has decoded the focus event and is about to range over
    the subscribers; the two steps of the loop hand the event to the
    first. *)
Lemma broadcast_serves_every_waiting_subscriber_witness :
  exists ch,
    chans (exec [CallStartEventListener dial; CallSubscribe I3WindowEvent;
                 CallSubscribe I3WindowEvent; Receive 0; Arrive 3 (RecvMsg focus);
                 Listen 3; Listen 3]) !! 0%nat = Some ch
    /\ chans (run (replicate (length [0%nat; 1%nat]) (Listen 3))
                (exec [CallStartEventListener dial; CallSubscribe I3WindowEvent;
                       CallSubscribe I3WindowEvent; Receive 0; Arrive 3 (RecvMsg focus);
                       Listen 3; Listen 3])) !! 0%nat
       = Some (if (0 <? Chan.recvq ch)%nat
               then Chan.mk 0 [] (Chan.recvq ch - 1) (Chan.received ch ++ [focus_event])
               else ch).
Proof.
  apply (broadcast_serves_every_waiting_subscriber 3
           (exec [CallStartEventListener dial; CallSubscribe I3WindowEvent;
                  CallSubscribe I3WindowEvent; Receive 0; Arrive 3 (RecvMsg focus);
                  Listen 3; Listen 3])
           (set_subscribers [0%nat; 1%nat] (new_socket accept))
           {| pc := InRange focus_event [0%nat; 1%nat]; decoded := [focus_event] |}
           focus_event [0%nat; 1%nat] 0).
  - exists [CallStartEventListener dial; CallSubscribe I3WindowEvent;
            CallSubscribe I3WindowEvent; Receive 0; Arrive 3 (RecvMsg focus);
            Listen 3; Listen 3]. reflexivity.
  - reflexivity.
  - reflexivity.
  - reflexivity.
  - reflexivity.
  - apply elem_of_cons. left. reflexivity.
Defined.

(** In the same state the next step of the goroutine changes channel 0:
    it is the subscriber at the head of the loop and a receiver waits. *)
Lemma listen_writes_only_to_own_subscribers_witness :
  exists socket l event rest ch,
    eventSockets (exec [CallStartEventListener dial; CallSubscribe I3WindowEvent;
                        CallSubscribe I3WindowEvent; Receive 0; Arrive 3 (RecvMsg focus);
                        Listen 3; Listen 3]) !! 3%nat = Some socket
    /\ 0%nat ∈ subscribers socket
    /\ listeners (exec [CallStartEventListener dial; CallSubscribe I3WindowEvent;
                        CallSubscribe I3WindowEvent; Receive 0; Arrive 3 (RecvMsg focus);
                        Listen 3; Listen 3]) !! 3%nat = Some l
    /\ pc l = InRange event (0%nat :: rest)
    /\ chans (exec [CallStartEventListener dial; CallSubscribe I3WindowEvent;
                    CallSubscribe I3WindowEvent; Receive 0; Arrive 3 (RecvMsg focus);
                    Listen 3; Listen 3]) !! 0%nat = Some ch
    /\ (0 < Chan.recvq ch)%nat
    /\ chans (step (Listen 3)
                (exec [CallStartEventListener dial; CallSubscribe I3WindowEvent;
                       CallSubscribe I3WindowEvent; Receive 0; Arrive 3 (RecvMsg focus);
                       Listen 3; Listen 3])) !! 0%nat
       = Some (Chan.mk 0 [] (Chan.recvq ch - 1) (Chan.received ch ++ [event])).
Proof.
  apply (listen_writes_only_to_own_subscribers 3
           (exec [CallStartEventListener dial; CallSubscribe I3WindowEvent;
                  CallSubscribe I3WindowEvent; Receive 0; Arrive 3 (RecvMsg focus);
                  Listen 3; Listen 3]) 0).
  - exists [CallStartEventListener dial; CallSubscribe I3WindowEvent;
            CallSubscribe I3WindowEvent; Receive 0; Arrive 3 (RecvMsg focus);
            Listen 3; Listen 3]. reflexivity.
  - change (Some (Chan.mk 0 [] 0 [focus_event]) <> Some (Chan.mk 0 [] 1 [])).
    discriminate.
Defined.

(** The first subscription to window events after startup returns
    channel 0, which nothing knew before. *)
Lemma Subscribe_returns_fresh_channel_witness :
  exists w',
    Subscribe I3WindowEvent started = Ok (Some 0%nat, None, w')
    /\ (forall i s, eventSockets started !! i = Some s -> 0%nat ∉ subscribers s)
    /\ (forall i l e rest, listeners started !! i = Some l -> pc l = InRange e rest ->
          0%nat ∉ rest)
    /\ (forall i s, eventSockets w' !! i = Some s ->
          0%nat ∈ subscribers s <-> i = Z.to_nat I3WindowEvent)
    /\ listeners w' = listeners started.
Proof.
  eexists. split; [reflexivity|].
  apply (Subscribe_returns_fresh_channel started _ I3WindowEvent 0 None).
  - exists [CallStartEventListener dial]. reflexivity.
  - reflexivity.
Defined.

(** The socket of window events is closed while a consumer waits; the
    goroutine returns at its next step, and the focus event that arrives
    afterwards reaches nobody. *)
Lemma closed_socket_ends_delivery_witness :
  listeners
    (run [Arrive 3 (RecvMsg focus); Listen 3; Listen 3; Listen 3]
       (step (Listen 3)
          (exec [CallStartEventListener dial; CallSubscribe I3WindowEvent; Receive 0;
                 CloseSocket 3]))) !! 3%nat
  = Some {| pc := Returned; decoded := decoded {| pc := AtTop; decoded := [] |} |}
  /\ forall c socket',
       eventSockets
         (run [Arrive 3 (RecvMsg focus); Listen 3; Listen 3; Listen 3]
            (step (Listen 3)
               (exec [CallStartEventListener dial; CallSubscribe I3WindowEvent; Receive 0;
                      CloseSocket 3]))) !! 3%nat = Some socket' ->
       c ∈ subscribers socket' ->
       exists ch,
         chans
           (run [Arrive 3 (RecvMsg focus); Listen 3; Listen 3; Listen 3]
              (step (Listen 3)
                 (exec [CallStartEventListener dial; CallSubscribe I3WindowEvent; Receive 0;
                        CloseSocket 3]))) !! c = Some ch
         /\ Chan.received ch
            = from_option Chan.received []
                (chans (exec [CallStartEventListener dial; CallSubscribe I3WindowEvent;
                              Receive 0; CloseSocket 3]) !! c).
Proof.
  apply (closed_socket_ends_delivery 3
           (exec [CallStartEventListener dial; CallSubscribe I3WindowEvent; Receive 0;
                  CloseSocket 3])
           (set_open false (set_subscribers [0%nat] (new_socket accept)))
           {| pc := AtTop; decoded := [] |}
           [Arrive 3 (RecvMsg focus); Listen 3; Listen 3; Listen 3]).
  - exists [CallStartEventListener dial; CallSubscribe I3WindowEvent; Receive 0;
            CloseSocket 3]. reflexivity.
  - reflexivity.
  - reflexivity.
  - reflexivity.
  - reflexivity.
  - reflexivity.
Defined.


(** One pass of the goroutine of window events over the focus event, with
    two subscribers. *)
Lemma listen_pass_delivers_event_witness :
  exited (run (replicate (3 + length (subscribers
                 (set_pending [RecvMsg focus]
                    (set_subscribers [0%nat; 1%nat] (new_socket accept))))) (Listen 3))
            (exec [CallStartEventListener dial; CallSubscribe I3WindowEvent;
                   CallSubscribe I3WindowEvent; Receive 0; Arrive 3 (RecvMsg focus)]))
  = None
  /\ listeners (run (replicate (3 + length (subscribers
                       (set_pending [RecvMsg focus]
                          (set_subscribers [0%nat; 1%nat] (new_socket accept)))))
                       (Listen 3))
                  (exec [CallStartEventListener dial; CallSubscribe I3WindowEvent;
                         CallSubscribe I3WindowEvent; Receive 0; Arrive 3 (RecvMsg focus)]))
     = <[3%nat := {| pc := AtTop;
                     decoded := decoded {| pc := AtTop; decoded := [] |} ++ [focus_event] |}]>
         (listeners (exec [CallStartEventListener dial; CallSubscribe I3WindowEvent;
                           CallSubscribe I3WindowEvent; Receive 0;
                           Arrive 3 (RecvMsg focus)])).
Proof.
  destruct (listen_pass_delivers_event 3
              (exec [CallStartEventListener dial; CallSubscribe I3WindowEvent;
                     CallSubscribe I3WindowEvent; Receive 0; Arrive 3 (RecvMsg focus)])
              (set_pending [RecvMsg focus]
                 (set_subscribers [0%nat; 1%nat] (new_socket accept)))
              {| pc := AtTop; decoded := [] |} focus [] focus_event)
    as (H1 & H2 & _).
  - exists [CallStartEventListener dial; CallSubscribe I3WindowEvent;
            CallSubscribe I3WindowEvent; Receive 0; Arrive 3 (RecvMsg focus)]. reflexivity.
  - reflexivity.
  - reflexivity.
  - reflexivity.
  - reflexivity.
  - reflexivity.
  - reflexivity.
  - reflexivity.
  - reflexivity.
  - split; [exact H1|exact H2].
Defined.

(** The focus event that the first subscriber has received in the run
    [two_frames]. *)
Lemma received_event_is_fully_decoded_witness :
  Event_Details focus_event <> NoDetails
  /\ Details_for (Event_Type focus_event) (Event_Details focus_event)
  /\ Event_Change focus_event = Details_Change (Event_Details focus_event)
  /\ exists msg, RecvMsg msg ∈ frames_for 3 two_frames /\ Message_IsEvent msg = true
                 /\ Event_Type focus_event = Message_Type msg.
Proof.
  apply (received_event_is_fully_decoded two_frames 3
           (set_subscribers [0%nat; 1%nat] (new_socket accept)) 0
           (Chan.mk 0 [] 0 [focus_event]) focus_event).
  - reflexivity.
  - apply elem_of_cons. left. reflexivity.
  - reflexivity.
  - apply elem_of_cons. left. reflexivity.
Defined.
